(** * show_issues.py: paginated issue collection and organization aggregation

    A shallow embedding of [get_issues_from_repo] and [get_org_issues] of
    [show_issues.py], and proofs of their cap, filtering, ordering,
    pagination and failure properties.

    Python integers are [Z]; lists are [list]; the decoded JSON bodies are
    typed the way the source annotates and subscripts them.  The HTTP session
    is an explicit transport over an abstract [World]; every exchange made
    through it is recorded in a trace, and the lines printed to standard
    error are collected in the state. *)

From Stdlib Require Import ZArith List String Ascii Lia Bool.
From Stdlib Require Import Sorted Permutation DecimalString.
Import ListNotations.

Open Scope Z_scope.

(** ** Data model *)

(** An issue as returned by the remote API.  The fields are the keys the
    source subscripts unconditionally ([issue["number"]], ...,
    [issue["updated_at"]]); [repository_url] and [pull_request] are the two
    keys whose presence the source tests with [in], hence options. *)
Record Issue := mkIssue {
  number : Z;
  title : string;
  state : string;
  user_login : string;
  created_at : string;
  updated_at : string;
  html_url : string;
  labels : list string;
  assignees : list string;
  repository_url : option string;
  pull_request : option string
}.

(** A repository of the organization listing; only [repo["name"]] is read. *)
Record Repo := mkRepo { name : string }.

(** Values of the [params] dictionary handed to [session.get]. *)
Inductive Param :=
| PStr (s : string)
| PInt (n : Z).

(** A Python dict with string keys, in insertion order. *)
Definition Dict := list (string * Param).

(** [d[k] = v]: overwrite in place when the key exists, append otherwise. *)
Fixpoint dict_set (k : string) (v : Param) (d : Dict) : Dict :=
  match d with
  | [] => [(k, v)]
  | (k', v') :: d' =>
      if String.eqb k' k then (k, v) :: d' else (k', v') :: dict_set k v d'
  end.

Record Request := mkRequest {
  url : string;
  params : Dict
}.

(** What [session.get] returns: the status code, the raw text, and the
    decoded body ([response.json()]) at the type of the endpoint. *)
Record Response (A : Type) := mkResponse {
  status_code : Z;
  text : string;
  json : A
}.

Arguments mkResponse {A} _ _ _.
Arguments status_code {A} _.
Arguments text {A} _.
Arguments json {A} _.

(** The session, as the two remote calls the program makes through
    [session.get]: "list issues for repository" and "list repositories for
    organization".  The remote side is an arbitrary state machine over
    [World]. *)
Record Session (World : Type) := mkSession {
  get_issues : Request -> World -> Response (list Issue) * World;
  get_repos : Request -> World -> Response (list Repo) * World
}.

Arguments get_issues {World} _ _ _.
Arguments get_repos {World} _ _ _.

(** One recorded exchange with the remote side. *)
Inductive Event :=
| EvIssues (q : Request) (r : Response (list Issue))
| EvRepos (q : Request) (r : Response (list Repo)).

(** The state threaded through the program. *)
Record St (World : Type) := mkSt {
  world : World;
  trace : list Event;
  stderr : list string
}.

Arguments mkSt {World} _ _ _.
Arguments world {World} _.
Arguments trace {World} _.
Arguments stderr {World} _.

(** ** Python primitives *)

(** [len(l)] *)
Definition len {A : Type} (l : list A) : Z := Z.of_nat (List.length l).

(** [l[:n]]; a negative [n] counts from the end. *)
Definition slice_to {A : Type} (l : list A) (n : Z) : list A :=
  if n <? 0 then firstn (Z.to_nat (len l + n)) l else firstn (Z.to_nat n) l.

(** [not l] for a list *)
Definition is_empty {A : Type} (l : list A) : bool :=
  match l with
  | [] => true
  | _ :: _ => false
  end.

(** [str(n)] for an integer *)
Definition str_of_Z (n : Z) : string := NilZero.string_of_int (Z.to_int n).

(** ["pull_request" in issue] *)
Definition has_pull_request (issue : Issue) : bool :=
  match pull_request issue with
  | Some _ => true
  | None => false
  end.

(** [[issue for issue in issues if "pull_request" not in issue]] *)
Definition non_pull_requests (issues : list Issue) : list Issue :=
  filter (fun issue => negb (has_pull_request issue)) issues.

(** [l.sort(key=lambda x: x["updated_at"], reverse=True)].  Python's sort is
    stable, also under [reverse=True]; a stable sort is determined by its
    key order, so an insertion sort that puts an element before the first
    one whose key is not greater computes the same list.  Keys are strings;
    Python compares them by code point, which is the byte order of their
    UTF-8 encoding. *)
Fixpoint insert_by_updated_at (x : Issue) (l : list Issue) : list Issue :=
  match l with
  | [] => [x]
  | y :: l' =>
      if String.leb (updated_at y) (updated_at x)
      then x :: y :: l'
      else y :: insert_by_updated_at x l'
  end.

Definition sort_by_updated_at_desc (l : list Issue) : list Issue :=
  fold_right insert_by_updated_at [] l.

(** ** The effect monad: state, and [None] when a loop budget runs out *)

Module M.

Definition t (World A : Type) : Type := St World -> option (A * St World).

Definition ret {World A : Type} (a : A) : t World A :=
  fun st => Some (a, st).

Definition bind {World A B : Type} (m : t World A) (k : A -> t World B)
  : t World B :=
  fun st =>
    match m st with
    | Some (a, st') => k a st'
    | None => None
    end.

Definition out_of_budget {World A : Type} : t World A := fun _ => None.

(** [print(line, file=sys.stderr)] *)
Definition eprint {World : Type} (line : string) : t World unit :=
  fun st => Some (tt, mkSt (world st) (trace st) (stderr st ++ [line])).

End M.

Notation "x <- m ;; k" := (M.bind m (fun x => k))
  (at level 61, m at next level, right associativity).
Notation "m ;;; k" := (M.bind m (fun _ => k))
  (at level 61, right associativity).

Section Program.

Context {World : Type}.
Variable session : Session World.

(** [session.get(url, params=params)] on the issues endpoint *)
Definition session_get_issues (url : string) (params : Dict)
  : M.t World (Response (list Issue)) :=
  fun st =>
    let q := mkRequest url params in
    let (r, w) := get_issues session q (world st) in
    Some (r, mkSt w (trace st ++ [EvIssues q r]) (stderr st)).

(** [session.get(url, params=params)] on the repositories endpoint *)
Definition session_get_repos (url : string) (params : Dict)
  : M.t World (Response (list Repo)) :=
  fun st =>
    let q := mkRequest url params in
    let (r, w) := get_repos session q (world st) in
    Some (r, mkSt w (trace st ++ [EvRepos q r]) (stderr st)).

(** ** [get_issues_from_repo] *)

(** The [while len(all_issues) < max_issues] loop.  [params] is the
    dictionary the loop mutates; [per_page] is [params["per_page"]], which
    the loop never changes.  [budget] bounds the number of iterations. *)
Fixpoint fetch_pages (budget : nat) (owner repo url : string) (params : Dict)
    (per_page max_issues : Z) (all_issues : list Issue) (page : Z)
  : M.t World (list Issue) :=
  if len all_issues <? max_issues then
    match budget with
    | O => M.out_of_budget
    | S budget' =>
        let params := dict_set "page" (PInt page) params in
        response <- session_get_issues url params ;;
        if negb (status_code response =? 200) then
          M.eprint ("エラー: リポジトリ " ++ owner ++ "/" ++ repo
                    ++ " のissues取得に失敗しました。")%string ;;;
          M.eprint ("ステータスコード: "
                    ++ str_of_Z (status_code response))%string ;;;
          M.eprint ("レスポンス: " ++ text response)%string ;;;
          M.ret all_issues
        else
          let issues := json response in
          if is_empty issues then M.ret all_issues
          else
            let issues := non_pull_requests issues in
            let all_issues := all_issues ++ issues in
            if len issues <? per_page then M.ret all_issues
            else
              fetch_pages budget' owner repo url params per_page max_issues
                          all_issues (page + 1)
    end
  else M.ret all_issues.

Definition get_issues_from_repo (owner repo state : string) (max_issues : Z)
  : M.t World (list Issue) :=
  let url :=
    ("https://api.github.com/repos/" ++ owner ++ "/" ++ repo ++ "/issues")%string in
  let per_page := Z.min max_issues 100 in
  let params :=
    [("state"%string, PStr state);
     ("per_page"%string, PInt per_page);
     ("sort"%string, PStr "updated");
     ("direction"%string, PStr "desc")] in
  all_issues <- fetch_pages (Z.to_nat max_issues) owner repo url params
                            per_page max_issues [] 1 ;;
  M.ret (slice_to all_issues max_issues).

(** ** [get_org_issues] *)

(** The [for repo in repos] loop with its [break]. *)
Fixpoint for_each_repo (org state : string) (max_issues : Z)
    (repos : list Repo) (all_issues : list Issue) : M.t World (list Issue) :=
  match repos with
  | [] => M.ret all_issues
  | repo :: repos' =>
      let repo_name := name repo in
      issues <- get_issues_from_repo org repo_name state max_issues ;;
      let all_issues := all_issues ++ issues in
      if len all_issues >=? max_issues then M.ret all_issues
      else for_each_repo org state max_issues repos' all_issues
  end.

Definition get_org_issues (org state : string) (max_issues : Z)
  : M.t World (list Issue) :=
  let url := ("https://api.github.com/orgs/" ++ org ++ "/repos")%string in
  let params := [("per_page"%string, PInt 100); ("type"%string, PStr "all")] in
  response <- session_get_repos url params ;;
  if negb (status_code response =? 200) then
    M.eprint ("エラー: 組織 " ++ org
              ++ " のリポジトリ一覧取得に失敗しました。")%string ;;;
    M.eprint ("ステータスコード: " ++ str_of_Z (status_code response))%string ;;;
    M.ret []
  else
    let repos := json response in
    all_issues <- for_each_repo org state max_issues repos [] ;;
    let all_issues := sort_by_updated_at_desc all_issues in
    M.ret (slice_to all_issues max_issues).

End Program.

(** ** Ordering by last-update timestamp *)

(** [newest_first_rel a b]: [a] may stand before [b] in a sequence sorted by
    update time, descending. *)
Definition newest_first_rel (a b : Issue) : Prop :=
  String.leb (updated_at b) (updated_at a) = true.

(** Sorted by update time, descending: every adjacent pair is in order. *)
Definition newest_first (l : list Issue) : Prop := Sorted newest_first_rel l.

(** No element carries a pull-request back-reference. *)
Definition no_pull_requests (l : list Issue) : Prop :=
  Forall (fun issue => pull_request issue = None) l.

(** ** What a run of the fetcher looks like from outside *)

Definition issues_url (owner repo : string) : string :=
  ("https://api.github.com/repos/" ++ owner ++ "/" ++ repo ++ "/issues")%string.

(** The request for page [page]: page size [min(cap, 100)], sorted by update
    time, descending. *)
Definition page_request (owner repo state : string) (cap page : Z) : Request :=
  mkRequest (issues_url owner repo)
    [("state"%string, PStr state);
     ("per_page"%string, PInt (Z.min cap 100));
     ("sort"%string, PStr "updated");
     ("direction"%string, PStr "desc");
     ("page"%string, PInt page)].

(** The exchanges of a pagination that starts at [page] and receives [rs]:
    one request per response, with consecutive page numbers. *)
Fixpoint page_events (owner repo state : string) (cap page : Z)
    (rs : list (Response (list Issue))) : list Event :=
  match rs with
  | [] => []
  | r :: rs' =>
      EvIssues (page_request owner repo state cap page) r
        :: page_events owner repo state cap (page + 1) rs'
  end.

(** What one response adds to the accumulation. *)
Definition contribution (r : Response (list Issue)) : list Issue :=
  if status_code r =? 200 then non_pull_requests (json r) else [].

Definition accumulated (rs : list (Response (list Issue))) : list Issue :=
  List.concat (map contribution rs).

(** The pages among the responses: the bodies of the successful ones, in
    the order received. *)
Definition pages (rs : list (Response (list Issue))) : list Issue :=
  List.concat (map (fun r => if status_code r =? 200 then json r else []) rs).

(** The stopping conditions of the pagination after response [r], when
    [before] had been accumulated before it: (d) the remote call failed,
    (b) the page is empty, (c) the page, filtered or unfiltered, is shorter
    than the requested page size, (a) the accumulated count has reached the
    cap. *)
Definition stops_after (cap : Z) (before : list Issue)
    (r : Response (list Issue)) : Prop :=
  status_code r <> 200
  \/ json r = []
  \/ (len (non_pull_requests (json r)) < Z.min cap 100
      \/ len (json r) < Z.min cap 100)
  \/ cap <= len (before ++ contribution r).

(** The dictionary the loop holds yields the page request once its
    ["page"] entry is set. *)
Definition params_ready (owner repo state : string) (cap : Z) (d : Dict)
  : Prop :=
  forall p, dict_set "page" (PInt p) d
            = params (page_request owner repo state cap p).

(** The dictionary [get_issues_from_repo] builds before its loop. *)
Definition initial_params (state : string) (cap : Z) : Dict :=
  [("state"%string, PStr state);
   ("per_page"%string, PInt (Z.min cap 100));
   ("sort"%string, PStr "updated");
   ("direction"%string, PStr "desc")].

(** The request for the repository list of an organization. *)
Definition repos_request (org : string) : Request :=
  mkRequest ("https://api.github.com/orgs/" ++ org ++ "/repos")%string
    [("per_page"%string, PInt 100); ("type"%string, PStr "all")].

(** [fetch_chain session org state cap repos st results st']: from [st], the
    fetcher is invoked once for each of [repos], in order, each time with
    the state filter [state] and the cap [cap]; the invocations return
    [results], one per repository, and leave the state [st']. *)
Inductive fetch_chain {World : Type} (session : Session World)
    (org state : string) (cap : Z)
  : list Repo -> St World -> list (list Issue) -> St World -> Prop :=
| fetch_chain_nil (st : St World) :
    fetch_chain session org state cap [] st [] st
| fetch_chain_cons (repo : Repo) (repos : list Repo) (st st1 st2 : St World)
    (issues : list Issue) (results : list (list Issue)) :
    get_issues_from_repo session org (name repo) state cap st
    = Some (issues, st1) ->
    fetch_chain session org state cap repos st1 results st2 ->
    fetch_chain session org state cap (repo :: repos) st
                (issues :: results) st2.

(** ** A scripted remote side, for concrete runs *)

(** The remote side answers from two scripts, one per endpoint, whatever the
    request; an exhausted script answers 404. *)
Record Script := mkScript {
  issue_script : list (Response (list Issue));
  repo_script : list (Response (list Repo))
}.

Definition scripted : Session Script :=
  mkSession Script
    (fun _ w =>
       match issue_script w with
       | [] => (mkResponse 404 "Not Found" [], w)
       | r :: rs => (r, mkScript rs (repo_script w))
       end)
    (fun _ w =>
       match repo_script w with
       | [] => (mkResponse 404 "Not Found" [], w)
       | r :: rs => (r, mkScript (issue_script w) rs)
       end).

Definition start (w : Script) : St Script := mkSt w [] [].

(** An issue numbered [n], last updated at [ts]. *)
Definition issue_at (n : Z) (ts : string) : Issue :=
  mkIssue n "t" "open" "u" "2024-01-01T00:00:00Z" ts "h" [] [] None None.

(** A pull request numbered [n], last updated at [ts]. *)
Definition pull_at (n : Z) (ts : string) : Issue :=
  mkIssue n "t" "open" "u" "2024-01-01T00:00:00Z" ts "h" [] [] None (Some "p"%string).

Definition ok {A : Type} (body : A) : Response A := mkResponse 200 "" body.

(** Sample data: repository A holds issues 1 and 2, repository B issues 7
    and 8; the organization lists A then B. *)
Definition sample_a1 : Issue := issue_at 1 "2024-03-01T00:00:00Z".
Definition sample_a2 : Issue := issue_at 2 "2024-01-01T00:00:00Z".
Definition sample_b1 : Issue := issue_at 7 "2024-04-01T00:00:00Z".
Definition sample_b2 : Issue := issue_at 8 "2024-02-01T00:00:00Z".

Definition two_repo_org : Script :=
  mkScript [ok [sample_a1; sample_a2]; ok [sample_b1; sample_b2]]
           [ok [mkRepo "A"; mkRepo "B"]].

(** An organization whose repository list cannot be obtained. *)
Definition unlisted_org : Script :=
  mkScript [ok [sample_a1; sample_a2]]
           [mkResponse 503 "Service Unavailable" []].

(** A repository with one page of four issues and a pull request, newest
    first. *)
Definition one_page_repo : Script :=
  mkScript [ok [sample_b1; pull_at 9 "2024-03-15T00:00:00Z"; sample_a1;
                sample_b2; sample_a2]] [].

(** A repository whose first page of 100 issues arrives and whose second
    page fails. *)
Definition failing_repo : Script :=
  mkScript [ok (repeat sample_a1 100); mkResponse 500 "Server Error" [];
            ok [sample_a2]] [].

(** A repository that serves two full pages of 100 issues. *)
Definition large_repo : Script :=
  mkScript [ok (repeat sample_a1 100); ok (repeat sample_a2 100);
            ok [sample_a2]] [].

(** An organization that lists the single repository A. *)
Definition one_repo_org : Script :=
  mkScript [ok [sample_a1; sample_a2]] [ok [mkRepo "A"]].

(** ** What a run of the fetcher prints, and what the remote side answers *)

(** The three lines [get_issues_from_repo] prints for a failed page request:
    the repository, the status code and the response body. *)
Definition failure_report (owner repo : string) (r : Response (list Issue))
  : list string :=
  [("エラー: リポジトリ " ++ owner ++ "/" ++ repo
    ++ " のissues取得に失敗しました。")%string;
   ("ステータスコード: " ++ str_of_Z (status_code r))%string;
   ("レスポンス: " ++ text r)%string].

(** The lines printed over the responses [rs]. *)
Definition reported (owner repo : string) (rs : list (Response (list Issue)))
  : list string :=
  List.concat
    (map (fun r => if status_code r =? 200 then []
                   else failure_report owner repo r) rs).

(** The answers of the remote side to [n] successive page requests, the
    first for page [page], from the world [w]; and the world they leave. *)
Fixpoint page_answers {World : Type} (session : Session World)
    (owner repo state : string) (cap page : Z) (n : nat) (w : World)
  : list (Response (list Issue)) * World :=
  match n with
  | O => ([], w)
  | S n' =>
      let (r, w1) := get_issues session (page_request owner repo state cap page) w in
      let (rs, w2) := page_answers session owner repo state cap (page + 1) n' w1 in
      (r :: rs, w2)
  end.

(** * Credentials: [load_env_file] and [get_github_token] *)

(** ** Python string operations

    A Python [str] is held as the bytes of its UTF-8 encoding.  The
    operations below look for ASCII characters, or for the encodings of
    whole code points, so on well-formed UTF-8 they act as Python's do on
    code points. *)

Definition bytes (l : list nat) : string :=
  string_of_list_ascii (map ascii_of_nat l).

Definition newline : string := bytes [10]%nat.

(** The character [dquote] is the double quote. *)
Definition dquote : string := bytes [34]%nat.

(** [bool(s)] for a string *)
Definition nonempty (s : string) : bool :=
  match s with
  | EmptyString => false
  | String _ _ => true
  end.

(** [''.join(reversed(s))], byte-wise; used to work at the end of a string. *)
Fixpoint string_rev_append (s acc : string) : string :=
  match s with
  | EmptyString => acc
  | String c s' => string_rev_append s' (String c acc)
  end.

Definition string_rev (s : string) : string := string_rev_append s EmptyString.

(** [s] without its prefix [p], when it has that prefix. *)
Fixpoint drop_prefix (p s : string) : option string :=
  match p with
  | EmptyString => Some s
  | String a p' =>
      match s with
      | EmptyString => None
      | String b s' => if Ascii.eqb a b then drop_prefix p' s' else None
      end
  end.

(** [s.startswith(p)] *)
Definition startswith (p s : string) : bool :=
  match drop_prefix p s with
  | Some _ => true
  | None => false
  end.

(** [s] without one leading occurrence of the first of [pats] it starts
    with. *)
Fixpoint drop_one (pats : list string) (s : string) : option string :=
  match pats with
  | [] => None
  | p :: pats' =>
      match drop_prefix p s with
      | Some s' => Some s'
      | None => drop_one pats' s
      end
  end.

Fixpoint lstrip_upto (n : nat) (pats : list string) (s : string) : string :=
  match n with
  | O => s
  | S n' =>
      match drop_one pats s with
      | Some s' => lstrip_upto n' pats s'
      | None => s
      end
  end.

(** Remove leading occurrences of [pats] until none is left; each removal
    shortens the string, so [String.length s] rounds are enough. *)
Definition lstrip_of (pats : list string) (s : string) : string :=
  lstrip_upto (String.length s) pats s.

Definition rstrip_of (pats : list string) (s : string) : string :=
  string_rev (lstrip_of (map string_rev pats) (string_rev s)).

Definition strip_of (pats : list string) (s : string) : string :=
  rstrip_of pats (lstrip_of pats s).

(** The UTF-8 encodings of the code points for which [str.isspace] holds:
    U+0009..U+000D, U+001C..U+0020, U+0085, U+00A0, U+1680,
    U+2000..U+200A, U+2028, U+2029, U+202F, U+205F, U+3000. *)
Definition whitespace : list string :=
  map bytes
    [[9]; [10]; [11]; [12]; [13]; [28]; [29]; [30]; [31]; [32];
     [194; 133]; [194; 160]; [225; 154; 128];
     [226; 128; 128]; [226; 128; 129]; [226; 128; 130]; [226; 128; 131];
     [226; 128; 132]; [226; 128; 133]; [226; 128; 134]; [226; 128; 135];
     [226; 128; 136]; [226; 128; 137]; [226; 128; 138];
     [226; 128; 168]; [226; 128; 169]; [226; 128; 175];
     [226; 129; 159]; [227; 128; 128]]%nat.

(** [s.strip()] *)
Definition py_strip (s : string) : string := strip_of whitespace s.

(** [s.strip(c)] for a one-character string [c] *)
Definition strip_char (c s : string) : string := strip_of [c] s.

(** [c in s] for a character [c] *)
Fixpoint contains_char (c : ascii) (s : string) : bool :=
  match s with
  | EmptyString => false
  | String a s' => Ascii.eqb a c || contains_char c s'
  end.

(** The parts of [s] before and after the first [c]. *)
Fixpoint partition_char (c : ascii) (s : string) : option (string * string) :=
  match s with
  | EmptyString => None
  | String a s' =>
      if Ascii.eqb a c then Some (EmptyString, s')
      else
        match partition_char c s' with
        | Some (before, after) => Some (String a before, after)
        | None => None
        end
  end.

(** [s.split(c, 1)] for a character [c] *)
Definition split_once (c : ascii) (s : string) : list string :=
  match partition_char c s with
  | Some (before, after) => [before; after]
  | None => [s]
  end.

(** [len(s)]: the number of code points, i.e. of bytes that are not
    continuation bytes [10xxxxxx]. *)
Fixpoint str_len (s : string) : Z :=
  match s with
  | EmptyString => 0
  | String c s' =>
      (if (128 <=? nat_of_ascii c)%nat && (nat_of_ascii c <? 192)%nat
       then 0 else 1) + str_len s'
  end.

(** [str(b)] for a boolean *)
Definition str_of_bool (b : bool) : string := if b then "True" else "False".

(** ** The process environment and the [.env] files *)

(** [os.environ], in insertion order. *)
Definition Environ := list (string * string).

(** [os.environ.get(key)] *)
Fixpoint environ_get (key : string) (env : Environ) : option string :=
  match env with
  | [] => None
  | (k, v) :: env' => if String.eqb k key then Some v else environ_get key env'
  end.

(** What a Python statement does: it completes with a value, or raises. *)
Inductive Result (A : Type) :=
| Done (a : A)
| Raised (message : string).

Arguments Done {A} _.
Arguments Raised {A} _.

(** [os.environ.setdefault(key, value)]: an existing variable is kept;
    a new one is handed to [putenv], which refuses names and values that
    hold a NUL character with [ValueError: embedded null byte]. *)
Definition environ_setdefault (key value : string) (env : Environ)
  : Result Environ :=
  match environ_get key env with
  | Some _ => Done env
  | None =>
      if contains_char zero key || contains_char zero value
      then Raised "embedded null byte"
      else Done (env ++ [(key, value)])
  end.

(** A file as [for line in f] sees it: the lines it yields, then the
    exception that opening or reading raises, if any. *)
Record EnvFile := mkEnvFile {
  file_lines : list string;
  read_error : option string
}.

(** The surroundings of the program. *)
Record Host := mkHost {
  script_dir : string;
  env_path : string;
  script_env : option EnvFile;
  cwd_env : option EnvFile
}.

(** ** [load_env_file] *)

(** The body of [for line in f]. *)
Definition load_line (line : string) (env : Environ) : Result Environ :=
  let line := py_strip line in
  if nonempty line && negb (startswith "#" line) && contains_char "=" line
  then
    match split_once "=" line with
    | [key; value] =>
        let key := py_strip key in
        let value := strip_char "'" (strip_char dquote (py_strip value)) in
        if nonempty key && nonempty value
        then environ_setdefault key value env
        else Done env
    | _ => Raised "not enough values to unpack (expected 2, got 1)"
    end
  else Done env.

(** The loop over the lines; the environment reached is kept when a line
    raises. *)
Fixpoint load_lines (lines : list string) (env : Environ)
  : Environ * option string :=
  match lines with
  | [] => (env, None)
  | line :: lines' =>
      match load_line line env with
      | Done env' => load_lines lines' env'
      | Raised message => (env, Some message)
      end
  end.

(** The [try] block on the chosen file, with its [except Exception]. *)
Definition load_from (f : EnvFile) (env : Environ) (err : list string)
  : Environ * list string :=
  let (env', raised) := load_lines (file_lines f) env in
  let raised :=
    match raised with
    | Some message => Some message
    | None => read_error f
    end in
  match raised with
  | Some message =>
      (env', err ++ [("警告: .envファイルの読み込みに失敗しました: "
                      ++ message)%string])
  | None => (env', err)
  end.

(** [load_env_file()]: the [.env] beside the script, else the one of the
    working directory, else nothing. *)
Definition load_env_file (host : Host) (env : Environ) (err : list string)
  : Environ * list string :=
  match script_env host with
  | Some f => load_from f env err
  | None =>
      match cwd_env host with
      | Some f => load_from f env err
      | None => (env, err)
      end
  end.

(** ** [get_github_token] *)

(** [a or b] on the results of [os.environ.get] *)
Definition or_else (a b : option string) : option string :=
  match a with
  | Some s => if nonempty s then a else b
  | None => b
  end.

(** [bool(token)] *)
Definition truthy (token : option string) : bool :=
  match token with
  | Some s => nonempty s
  | None => false
  end.

Definition exists_file (f : option EnvFile) : bool :=
  match f with
  | Some _ => true
  | None => false
  end.

Definition get_github_token (host : Host) (env : Environ) (err : list string)
  : option string * Environ * list string :=
  let err :=
    err ++ [("スクリプトディレクトリ: " ++ script_dir host)%string;
            (".envファイルパス: " ++ env_path host)%string;
            (".envファイル存在確認: "
             ++ str_of_bool (exists_file (script_env host)))%string] in
  let (env, err) := load_env_file host env err in
  let token :=
    or_else (environ_get "GITHUB_TOKEN" env) (environ_get "GITHUB_PAT" env) in
  let err :=
    match token with
    | Some t =>
        if nonempty t
        then err ++ [("トークン取得成功（長さ: " ++ str_of_Z (str_len t)
                      ++ "文字）")%string]
        else err
    | None => err
    end in
  if negb (truthy token) then
    let err :=
      err ++ [(newline
               ++ "エラー: GitHub Personal Access Tokenが設定されていません。")%string;
              "以下のいずれかの方法でトークンを設定してください:"%string;
              "  1. 環境変数 GITHUB_TOKEN を設定"%string;
              ("  2. " ++ env_path host
               ++ " に GITHUB_TOKEN=your_token_here を記述")%string;
              (newline ++ "トークンの作成方法:")%string;
              "  https://github.com/settings/tokens"%string;
              "  必要な権限: repo (リポジトリ全体へのアクセス)"%string] in
    let err :=
      if negb (exists_file (script_env host)) then
        err ++ [(newline
                 ++ ".envファイルが見つかりません。以下の内容で作成してください:")%string;
                ("  ファイルパス: " ++ env_path host)%string;
                "  内容例:"%string;
                ("    GITHUB_TOKEN=" ++ dquote ++ "ghp_your_token_here"
                 ++ dquote)%string]
      else err in
    (None, env, err)
  else (token, env, err).

(** ** Plain text *)

(** No pattern of [pats] begins with the byte [c]. *)
Definition starts_none (pats : list string) (c : ascii) : bool :=
  forallb (fun p => match p with
                    | String a _ => negb (Ascii.eqb a c)
                    | EmptyString => false
                    end) pats.


(** The byte of a printable ASCII character other than the space. *)
Definition is_graphic (c : ascii) : bool :=
  (33 <=? nat_of_ascii c)%nat && (nat_of_ascii c <=? 126)%nat.

Fixpoint all_bytes (f : ascii -> bool) (s : string) : bool :=
  match s with
  | EmptyString => true
  | String c s' => f c && all_bytes f s'
  end.

Definition dquote_char : ascii := ascii_of_nat 34.
Definition squote_char : ascii := ascii_of_nat 39.

(** A variable name made of printable ASCII characters, without space or
    [=], that does not begin with [#]. *)
Definition plain_name (s : string) : bool :=
  nonempty s
  && all_bytes (fun c => is_graphic c && negb (Ascii.eqb c "=")) s
  && negb (startswith "#" s).

(** A value made of printable ASCII characters, without space or quote. *)
Definition plain_value (s : string) : bool :=
  nonempty s
  && all_bytes (fun c => is_graphic c && negb (Ascii.eqb c dquote_char)
                         && negb (Ascii.eqb c squote_char)) s.

(** * Output: the console summary and the Markdown report *)

(** ** More string operations *)

(** [s * n] *)
Fixpoint str_repeat (s : string) (n : nat) : string :=
  match n with
  | O => EmptyString
  | S n' => (s ++ str_repeat s n')%string
  end.

(** [s.split(sep)] for a non-empty separator: [piece] holds, reversed, the
    part read since the last separator, and [skip] counts the bytes of a
    separator just found that are still to be passed. *)
Fixpoint split_from (sep : string) (skip : nat) (piece s : string)
  : list string :=
  match s with
  | EmptyString => [string_rev piece]
  | String c s' =>
      match skip with
      | S k => split_from sep k piece s'
      | O =>
          if startswith sep s
          then string_rev piece
                 :: split_from sep (String.length sep - 1) EmptyString s'
          else split_from sep 0 (String c piece) s'
      end
  end.

Definition split_on (sep s : string) : list string :=
  split_from sep 0 EmptyString s.

(** [sep in s] *)
Fixpoint occurs (sep s : string) : bool :=
  startswith sep s
  || match s with
     | EmptyString => false
     | String _ s' => occurs sep s'
     end.

(** ** [format_issue_markdown] *)

(** [", ".join(names) if names else "なし"] *)
Definition joined_or_none (names : list string) : string :=
  if is_empty names then "なし"%string else String.concat ", " names.

(** [issue["repository_url"].split("/repos/")[1] if "repository_url" in
    issue else "不明"]; the subscript raises [IndexError] when the URL does
    not hold the separator. *)
Definition repo_full_name (issue : Issue) : Result string :=
  match repository_url issue with
  | Some u =>
      match nth_error (split_on "/repos/" u) 1 with
      | Some part => Done part
      | None => Raised "list index out of range"
      end
  | None => Done "不明"%string
  end.

(** ["🟢" if state == "open" else "🔴"] *)
Definition state_emoji (st : string) : string :=
  if String.eqb st "open" then "🟢"%string else "🔴"%string.

Definition format_issue_markdown (issue : Issue) : Result string :=
  let labels := joined_or_none (labels issue) in
  let assignees := joined_or_none (assignees issue) in
  match repo_full_name issue with
  | Raised message => Raised message
  | Done repo_full_name =>
      Done (newline
            ++ "### " ++ state_emoji (state issue) ++ " #"
            ++ str_of_Z (number issue) ++ ": " ++ title issue ++ newline
            ++ newline
            ++ "- **状態**: " ++ state issue ++ newline
            ++ "- **リポジトリ**: " ++ repo_full_name ++ newline
            ++ "- **作成者**: " ++ user_login issue ++ newline
            ++ "- **作成日時**: " ++ created_at issue ++ newline
            ++ "- **更新日時**: " ++ updated_at issue ++ newline
            ++ "- **ラベル**: " ++ labels ++ newline
            ++ "- **担当者**: " ++ assignees ++ newline
            ++ "- **URL**: " ++ html_url issue ++ newline
            ++ newline
            ++ "---" ++ newline)%string
  end.

(** ** [save_to_markdown] *)

(** The [for issue in issues: f.write(format_issue_markdown(issue))] loop:
    what has been written when it ends, and how it ends. *)
Fixpoint write_issues (issues : list Issue) (written : string)
  : string * Result unit :=
  match issues with
  | [] => (written, Done tt)
  | issue :: issues' =>
      match format_issue_markdown issue with
      | Done block => write_issues issues' (written ++ block)
      | Raised message => (written, Raised message)
      end
  end.

(** [save_to_markdown(issues, output_path)], for [now] the formatted
    [datetime.now()] and [open_error] what opening the file for writing
    raises, if anything.  The first component is the content of the file
    once it is closed; [None] when it could not be opened. *)
Definition save_to_markdown (now : string) (open_error : option string)
    (issues : list Issue) : option string * Result unit :=
  match open_error with
  | Some message => (None, Raised message)
  | None =>
      let written :=
        ("# GitHub Issues一覧" ++ newline ++ newline
         ++ "**生成日時**: " ++ now ++ newline ++ newline
         ++ "**総issue数**: " ++ str_of_Z (len issues) ++ newline ++ newline
         ++ "---" ++ newline)%string in
      if is_empty issues then
        (Some (written ++ newline ++ "該当するissuesが見つかりませんでした。"
               ++ newline)%string,
         Done tt)
      else
        let (written, outcome) := write_issues issues written in
        (Some written, outcome)
  end.

(** ** [print_issues_summary] *)

(** [repo_url.split("/")[-1] if repo_url else "不明"], for [repo_url] the
    value of [issue.get("repository_url", "")]. *)
Definition repo_name (issue : Issue) : string :=
  let repo_url :=
    match repository_url issue with
    | Some u => u
    | None => EmptyString
    end in
  if nonempty repo_url then last (split_on "/" repo_url) EmptyString
  else "不明"%string.

(** The lines one issue contributes; each element is one [print] call. *)
Definition summary_lines (issue : Issue) : list string :=
  [(state_emoji (state issue) ++ " #" ++ str_of_Z (number issue) ++ ": "
    ++ title issue)%string;
   ("   リポジトリ: " ++ repo_name issue ++ " | 状態: " ++ state issue)%string;
   ("   URL: " ++ html_url issue)%string;
   EmptyString].

Definition print_issues_summary (issues : list Issue) (out : list string)
  : list string :=
  let out :=
    out ++ [(newline ++ str_repeat "=" 60)%string;
            "GitHub Issues一覧"%string;
            (str_repeat "=" 60 ++ newline)%string;
            ("総issue数: " ++ str_of_Z (len issues) ++ newline)%string] in
  if is_empty issues
  then out ++ [("該当するissuesが見つかりませんでした。" ++ newline)%string]
  else out ++ List.concat (map summary_lines issues).

(** * The program: [main] *)

(** The settings section of the script. *)
Record Settings := mkSettings {
  OWNER : string;
  REPOSITORY : option string;
  STATE : string;
  MAX_ISSUES : Z
}.

(** The settings as shipped. *)
Definition shipped : Settings :=
  mkSettings "microfund" (Some "freee-public"%string) "open" 100.

(** How a run of the program ends. *)
Inductive Ending :=
| Finished
| Exited (code : Z)
| Crashed (message : string)
| OutOfBudget.

(** What a run of the program leaves behind. *)
Record Run (World : Type) := mkRun {
  ending : Ending;
  net : St World;
  environ : Environ;
  stdout : list string;
  report : option string
}.

Arguments mkRun {World} _ _ _ _ _.
Arguments ending {World} _.
Arguments net {World} _.
Arguments environ {World} _.
Arguments stdout {World} _.
Arguments report {World} _.

(** What the program finds besides the [.env] files: the path of the
    report, the formatted current time, and what opening the report for
    writing raises, if anything. *)
Record Output := mkOutput {
  output_path : string;
  now : string;
  open_error : option string
}.

(** [main()].  [connect token] is the session carrying the authorization
    header for [token]; [w] is the remote side at the start. *)
Definition main {World : Type} (settings : Settings) (host : Host)
    (output : Output) (connect : string -> Session World) (env : Environ)
    (w : World) : Run World :=
  let '(token, env, err) := get_github_token host env [] in
  match token with
  | None => mkRun (Exited 1) (mkSt w [] err) env [] None
  | Some token =>
      if negb (nonempty token) then mkRun (Exited 1) (mkSt w [] err) env [] None
      else
        let session := connect token in
        let repository_given :=
          match REPOSITORY settings with
          | Some r => nonempty r
          | None => false
          end in
        let repository :=
          match REPOSITORY settings with
          | Some r => r
          | None => EmptyString
          end in
        let out :=
          [("GitHub issuesを取得中..." ++ newline)%string;
           ("対象: " ++ OWNER settings)%string;
           (if repository_given then ("リポジトリ: " ++ repository)%string
            else "対象: 組織全体"%string);
           ("状態フィルター: " ++ STATE settings)%string;
           ("最大取得数: " ++ str_of_Z (MAX_ISSUES settings) ++ newline)%string] in
        let fetched :=
          if repository_given
          then get_issues_from_repo session (OWNER settings) repository
                 (STATE settings) (MAX_ISSUES settings) (mkSt w [] err)
          else get_org_issues session (OWNER settings) (STATE settings)
                 (MAX_ISSUES settings) (mkSt w [] err) in
        match fetched with
        | None => mkRun OutOfBudget (mkSt w [] err) env out None
        | Some (issues, st) =>
            let out := print_issues_summary issues out in
            match save_to_markdown (now output) (open_error output) issues with
            | (file, Raised message) => mkRun (Crashed message) st env out file
            | (file, Done _) =>
                let out :=
                  out ++ [(newline ++ str_repeat "=" 60)%string;
                          ("結果を保存しました: " ++ output_path output)%string;
                          (str_repeat "=" 60 ++ newline)%string] in
                mkRun Finished st env out file
            end
        end
  end.

(** ** Shapes used to state the properties of the output *)

(** The head of the report for [n] issues. *)
Definition report_header (now : string) (n : Z) : string :=
  ("# GitHub Issues一覧" ++ newline ++ newline
   ++ "**生成日時**: " ++ now ++ newline ++ newline
   ++ "**総issue数**: " ++ str_of_Z n ++ newline ++ newline
   ++ "---" ++ newline)%string.

(** [blocks] are the report blocks of [issues], one each, in order. *)
Definition formatted (issues : list Issue) (blocks : list string) : Prop :=
  Forall2 (fun issue block => format_issue_markdown issue = Done block)
          issues blocks.

(** The file [load_env_file] reads, if any. *)
Definition env_file_read (host : Host) : option EnvFile :=
  match script_env host with
  | Some f => Some f
  | None => cwd_env host
  end.

(** A host without [.env] files, and a place for the report. *)
Definition bare_host : Host := mkHost "/app" "/app/.env" None None.
Definition sample_output : Output :=
  mkOutput "/app/show_issues.md" "2024-05-01 12:00:00" None.

(** A host with a [.env] file beside the script. *)
Definition dotenv_host : Host :=
  mkHost "/app" "/app/.env"
    (Some (mkEnvFile [("GITHUB_TOKEN=ghp_file" ++ newline)%string;
                      ("# a comment" ++ newline)%string;
                      ("GITHUB_PAT='ghp_other'" ++ newline)%string] None))
    None.

(** An issue of repository [microfund/freee-public]. *)
Definition sample_api_issue : Issue :=
  mkIssue 12 "t" "open" "u" "2024-01-01T00:00:00Z" "2024-03-01T00:00:00Z"
    "h" [] []
    (Some "https://api.github.com/repos/microfund/freee-public"%string) None.

(** ** A remote side that serves one repository page by page *)

(** [d[k]] *)
Fixpoint dict_get (k : string) (d : Dict) : option Param :=
  match d with
  | [] => None
  | (k', v) :: d' => if String.eqb k' k then Some v else dict_get k d'
  end.

(** The integer parameter [k] of a request. *)
Definition int_param (k : string) (d : Dict) : Z :=
  match dict_get k d with
  | Some (PInt n) => n
  | _ => 0
  end.

(** A remote side holding the entries [all] of one repository (issues and
    pull requests, in the order it lists them): the request for page [p]
    with page size [n] is answered with [all[(p-1)*n : p*n]]. *)
Definition paged_repository (all : list Issue) : Session unit :=
  mkSession unit
    (fun q w =>
       let n := int_param "per_page" (params q) in
       let p := int_param "page" (params q) in
       (ok (firstn (Z.to_nat n) (skipn (Z.to_nat ((p - 1) * n)) all)), w))
    (fun _ w => (ok [], w)).

(** * Proofs *)

(** ** Lists, lengths and slices *)

Lemma len_nonneg {A : Type} (l : list A) : 0 <= len l.
Proof. unfold len. lia. Qed.

Lemma len_app {A : Type} (l1 l2 : list A) : len (l1 ++ l2) = len l1 + len l2.
Proof. unfold len. rewrite length_app. lia. Qed.

Lemma len_nil_iff {A : Type} (l : list A) : len l = 0 <-> l = [].
Proof.
  unfold len. destruct l as [|a l]; simpl; split; intro H;
    try reflexivity; try discriminate; lia.
Qed.

Lemma slice_to_firstn {A : Type} (l : list A) (n : Z) :
  exists k : nat, slice_to l n = firstn k l.
Proof.
  unfold slice_to. destruct (n <? 0); eexists; reflexivity.
Qed.

Lemma slice_to_len {A : Type} (l : list A) (n : Z) :
  0 <= n -> len (slice_to l n) <= n.
Proof.
  intros Hn. unfold slice_to.
  destruct (n <? 0) eqn:E; [apply Z.ltb_lt in E; lia|].
  unfold len. pose proof (firstn_le_length (Z.to_nat n) l) as H.
  rewrite length_firstn. lia.
Qed.

Lemma slice_to_len_min {A : Type} (l : list A) (n : Z) :
  0 <= n -> len (slice_to l n) = Z.min n (len l).
Proof.
  intros Hn. unfold slice_to.
  destruct (n <? 0) eqn:E; [apply Z.ltb_lt in E; lia|].
  unfold len. rewrite length_firstn. lia.
Qed.

Lemma slice_to_all {A : Type} (l : list A) (n : Z) :
  len l <= n -> slice_to l n = l.
Proof.
  intros Hn. pose proof (len_nonneg l) as H0. unfold slice_to.
  destruct (n <? 0) eqn:E; [apply Z.ltb_lt in E; lia|].
  apply firstn_all2. unfold len in Hn. lia.
Qed.

Lemma slice_to_nil {A : Type} (n : Z) : slice_to (@nil A) n = [].
Proof. unfold slice_to. destruct (n <? 0); apply firstn_nil. Qed.

Lemma firstn_In {A : Type} (k : nat) (l : list A) (x : A) :
  In x (firstn k l) -> In x l.
Proof.
  intros H. rewrite <- (firstn_skipn k l). apply in_or_app. left. exact H.
Qed.

Lemma slice_to_In {A : Type} (l : list A) (n : Z) (x : A) :
  In x (slice_to l n) -> In x l.
Proof.
  destruct (slice_to_firstn l n) as [k ->]. apply firstn_In.
Qed.

Lemma Forall_firstn' {A : Type} (P : A -> Prop) (k : nat) (l : list A) :
  Forall P l -> Forall P (firstn k l).
Proof.
  intros H. apply Forall_forall. intros x Hx.
  rewrite Forall_forall in H. apply H. eapply firstn_In; eassumption.
Qed.

Lemma slice_to_Forall {A : Type} (P : A -> Prop) (l : list A) (n : Z) :
  Forall P l -> Forall P (slice_to l n).
Proof.
  destruct (slice_to_firstn l n) as [k ->]. apply Forall_firstn'.
Qed.

Lemma StronglySorted_firstn {A : Type} (R : A -> A -> Prop) (k : nat) :
  forall l, StronglySorted R l -> StronglySorted R (firstn k l).
Proof.
  induction k as [|k IH]; intros l H; simpl.
  - constructor.
  - destruct l as [|a l]; [constructor|].
    inversion H; subst. constructor.
    + apply IH; assumption.
    + apply Forall_firstn'; assumption.
Qed.

Lemma StronglySorted_filter {A : Type} (R : A -> A -> Prop) (f : A -> bool) :
  forall l, StronglySorted R l -> StronglySorted R (filter f l).
Proof.
  induction l as [|a l IH]; intros H; simpl.
  - constructor.
  - inversion H; subst. destruct (f a).
    + constructor; [apply IH; assumption|].
      apply Forall_forall. intros x Hx. apply filter_In in Hx.
      rewrite Forall_forall in H3. apply H3. tauto.
    + apply IH; assumption.
Qed.

(** ** The order on timestamps *)

Lemma string_compare_le_trans :
  forall a b c : string,
    String.compare a b <> Gt -> String.compare b c <> Gt ->
    String.compare a c <> Gt.
Proof.
  induction a as [|x a IH]; intros [|y b] [|z c]; simpl;
    try congruence.
  unfold Ascii.compare.
  destruct (N.compare_spec (N_of_ascii x) (N_of_ascii y)) as [Exy|Lxy|Gxy];
    destruct (N.compare_spec (N_of_ascii y) (N_of_ascii z)) as [Eyz|Lyz|Gyz];
    destruct (N.compare_spec (N_of_ascii x) (N_of_ascii z)) as [Exz|Lxz|Gxz];
    intros H1 H2; try congruence; try lia.
  eapply IH; eassumption.
Qed.

Lemma string_leb_trans (a b c : string) :
  String.leb a b = true -> String.leb b c = true -> String.leb a c = true.
Proof.
  unfold String.leb. intros H1 H2.
  pose proof (string_compare_le_trans a b c) as H.
  destruct (String.compare a b); try discriminate;
    destruct (String.compare b c); try discriminate;
    destruct (String.compare a c); try reflexivity;
    exfalso; apply H; congruence.
Qed.

Lemma string_leb_refl (a : string) : String.leb a a = true.
Proof. destruct (String.leb_total a a); assumption. Qed.

Lemma newest_first_rel_trans : Relations_1.Transitive newest_first_rel.
Proof.
  intros a b c Hab Hbc. unfold newest_first_rel in *.
  eapply string_leb_trans; eassumption.
Qed.

Lemma newest_first_rel_total (a b : Issue) :
  newest_first_rel a b \/ newest_first_rel b a.
Proof. unfold newest_first_rel. destruct (String.leb_total (updated_at a) (updated_at b)); auto. Qed.

Lemma newest_first_strongly (l : list Issue) :
  newest_first l <-> StronglySorted newest_first_rel l.
Proof.
  split.
  - apply Sorted_StronglySorted, newest_first_rel_trans.
  - apply StronglySorted_Sorted.
Qed.

(** ** The sort *)

Lemma insert_by_updated_at_perm (x : Issue) (l : list Issue) :
  Permutation (x :: l) (insert_by_updated_at x l).
Proof.
  induction l as [|y l IH]; simpl.
  - apply Permutation_refl.
  - destruct (String.leb (updated_at y) (updated_at x)).
    + apply Permutation_refl.
    + eapply Permutation_trans; [apply perm_swap|].
      apply perm_skip. exact IH.
Qed.

Lemma sort_by_updated_at_desc_perm (l : list Issue) :
  Permutation l (sort_by_updated_at_desc l).
Proof.
  induction l as [|x l IH]; simpl.
  - apply Permutation_refl.
  - eapply Permutation_trans; [apply perm_skip; exact IH|].
    apply insert_by_updated_at_perm.
Qed.

Lemma insert_by_updated_at_sorted (x : Issue) (l : list Issue) :
  StronglySorted newest_first_rel l ->
  StronglySorted newest_first_rel (insert_by_updated_at x l).
Proof.
  induction l as [|y l IH]; intros H; simpl.
  - constructor; constructor.
  - inversion H as [|y' l' Hl Hy]; subst.
    destruct (String.leb (updated_at y) (updated_at x)) eqn:E.
    + constructor; [exact H|].
      constructor; [exact E|].
      apply Forall_forall. intros z Hz.
      rewrite Forall_forall in Hy.
      eapply newest_first_rel_trans; [exact E | apply Hy; exact Hz].
    + constructor; [apply IH; exact Hl|].
      apply Forall_forall. intros z Hz.
      apply (Permutation_in z (Permutation_sym (insert_by_updated_at_perm x l))) in Hz.
      destruct Hz as [<-|Hz].
      * destruct (newest_first_rel_total y x) as [Hyx|Hxy]; [exact Hyx|].
        unfold newest_first_rel in Hxy. congruence.
      * rewrite Forall_forall in Hy. apply Hy; exact Hz.
Qed.

Lemma sort_by_updated_at_desc_sorted (l : list Issue) :
  StronglySorted newest_first_rel (sort_by_updated_at_desc l).
Proof.
  induction l as [|x l IH]; simpl.
  - constructor.
  - apply insert_by_updated_at_sorted. exact IH.
Qed.

Lemma sort_by_updated_at_desc_length (l : list Issue) :
  len (sort_by_updated_at_desc l) = len l.
Proof.
  unfold len. f_equal. symmetry.
  apply Permutation_length, sort_by_updated_at_desc_perm.
Qed.

Lemma sort_by_updated_at_desc_In (l : list Issue) (x : Issue) :
  In x (sort_by_updated_at_desc l) <-> In x l.
Proof.
  split; apply Permutation_in;
    [apply Permutation_sym|]; apply sort_by_updated_at_desc_perm.
Qed.

(** ** Filtering *)

Lemma non_pull_requests_clean (l : list Issue) :
  no_pull_requests (non_pull_requests l).
Proof.
  apply Forall_forall. intros x Hx.
  apply filter_In in Hx. destruct Hx as [_ Hx].
  unfold has_pull_request in Hx.
  destruct (pull_request x); [discriminate|reflexivity].
Qed.

Lemma non_pull_requests_len (l : list Issue) :
  len (non_pull_requests l) <= len l.
Proof.
  unfold len, non_pull_requests.
  pose proof (filter_length_le (fun i => negb (has_pull_request i)) l). lia.
Qed.

Lemma contribution_clean (r : Response (list Issue)) :
  no_pull_requests (contribution r).
Proof.
  unfold contribution. destruct (status_code r =? 200).
  - apply non_pull_requests_clean.
  - constructor.
Qed.

Lemma accumulated_clean (rs : list (Response (list Issue))) :
  no_pull_requests (accumulated rs).
Proof.
  induction rs as [|r rs IH]; simpl.
  - constructor.
  - apply Forall_app. split; [apply contribution_clean | exact IH].
Qed.

Lemma accumulated_app (rs1 rs2 : list (Response (list Issue))) :
  accumulated (rs1 ++ rs2) = accumulated rs1 ++ accumulated rs2.
Proof. unfold accumulated. rewrite map_app, concat_app. reflexivity. Qed.

Lemma accumulated_pages (rs : list (Response (list Issue))) :
  accumulated rs = non_pull_requests (pages rs).
Proof.
  induction rs as [|r rs IH].
  - reflexivity.
  - unfold accumulated, pages in *. simpl.
    unfold non_pull_requests in *. rewrite filter_app, <- IH.
    unfold contribution, non_pull_requests.
    destruct (status_code r =? 200); reflexivity.
Qed.

(** ** Runs of the pagination loop *)

Section Runs.

Context {World : Type}.
Variable session : Session World.

(** The loop leaves at once when the cap is reached. *)
Lemma fetch_pages_done (budget : nat) (owner repo u : string) (d : Dict)
    (per_page cap : Z) (acc : list Issue) (page : Z) (st : St World) :
  (len acc <? cap) = false ->
  fetch_pages session budget owner repo u d per_page cap acc page st
  = Some (acc, st).
Proof.
  intros H. destruct budget; simpl; rewrite H; reflexivity.
Qed.

(** One iteration of the loop, by cases on the response. *)
Lemma fetch_pages_step (budget : nat) (owner repo u : string) (d : Dict)
    (per_page cap : Z) (acc : list Issue) (page : Z) (st : St World) :
  (len acc <? cap) = true ->
  let q := mkRequest u (dict_set "page" (PInt page) d) in
  let r := fst (get_issues session q (world st)) in
  let w := snd (get_issues session q (world st)) in
  let st1 := mkSt w (trace st ++ [EvIssues q r]) (stderr st) in
  (status_code r <> 200 ->
   exists st2,
     fetch_pages session (S budget) owner repo u d per_page cap acc page st
     = Some (acc, st2)
     /\ world st2 = w /\ trace st2 = trace st1)
  /\ (status_code r = 200 -> json r = [] ->
      fetch_pages session (S budget) owner repo u d per_page cap acc page st
      = Some (acc, st1))
  /\ (status_code r = 200 -> json r <> [] ->
      len (non_pull_requests (json r)) < per_page ->
      fetch_pages session (S budget) owner repo u d per_page cap acc page st
      = Some (acc ++ non_pull_requests (json r), st1))
  /\ (status_code r = 200 -> json r <> [] ->
      per_page <= len (non_pull_requests (json r)) ->
      fetch_pages session (S budget) owner repo u d per_page cap acc page st
      = fetch_pages session budget owner repo u
          (dict_set "page" (PInt page) d) per_page cap
          (acc ++ non_pull_requests (json r)) (page + 1) st1).
Proof.
  intros Hlt q r w st1. subst q r w st1.
  cbn [fetch_pages]. rewrite Hlt.
  unfold M.bind, session_get_issues.
  destruct (get_issues session _ (world st)) as [r w]. cbn [fst snd].
  repeat split.
  - intros Hs. apply Z.eqb_neq in Hs. rewrite Hs. cbn.
    eexists. repeat split.
  - intros Hs He. rewrite Hs, He. reflexivity.
  - intros Hs He Hl. rewrite Hs. cbn [Z.eqb negb].
    replace (200 =? 200) with true by reflexivity. cbn [negb].
    destruct (json r) as [|i l] eqn:Ej; [congruence|]. cbn [is_empty].
    apply Z.ltb_lt in Hl. rewrite Hl. reflexivity.
  - intros Hs He Hl. rewrite Hs.
    replace (200 =? 200) with true by reflexivity. cbn [negb].
    destruct (json r) as [|i l] eqn:Ej; [congruence|]. cbn [is_empty].
    apply Z.ltb_ge in Hl. rewrite Hl. reflexivity.
Qed.

Lemma params_ready_initial (owner repo state : string) (cap : Z) :
  params_ready owner repo state cap (initial_params state cap).
Proof. intros p. reflexivity. Qed.

Lemma params_ready_next (owner repo state : string) (cap p : Z) :
  params_ready owner repo state cap
    (params (page_request owner repo state cap p)).
Proof. intros p'. reflexivity. Qed.

Lemma singleton_split {A : Type} (l1 l2 : list A) (a b : A) :
  [a] = l1 ++ b :: l2 -> l1 = [] /\ b = a /\ l2 = [].
Proof.
  destruct l1 as [|c l1]; simpl; intros H.
  - injection H as -> ->. auto.
  - injection H as _ H. destruct l1; discriminate.
Qed.

(** The run of the loop from accumulation [acc] and page number [page]:
    the responses [rs] it receives, what it returns, what it records, and
    where it stops. *)
Lemma fetch_pages_run (owner repo state : string) (cap : Z) :
  forall (budget : nat) (d : Dict) (acc : list Issue) (page : Z)
         (st : St World),
    params_ready owner repo state cap d ->
    cap - len acc <= Z.of_nat budget ->
    exists rs st',
      fetch_pages session budget owner repo (issues_url owner repo) d
                  (Z.min cap 100) cap acc page st
      = Some (acc ++ accumulated rs, st')
      /\ trace st' = trace st ++ page_events owner repo state cap page rs
      /\ (rs = [] <-> cap <= len acc)
      /\ (forall rs1 r rs2, rs = rs1 ++ r :: rs2 ->
             len (acc ++ accumulated rs1) < cap
             /\ (rs2 = [] <-> stops_after cap (acc ++ accumulated rs1) r)).
Proof.
  induction budget as [|budget IH]; intros d acc page st Hd Hb;
    destruct (len acc <? cap) eqn:Hlt.
  2, 4: (exists [], st; rewrite fetch_pages_done by exact Hlt;
         apply Z.ltb_ge in Hlt; cbn; rewrite !app_nil_r;
         repeat split; auto; try lia; destruct rs1; discriminate).
  - apply Z.ltb_lt in Hlt. lia.
  - pose proof (fetch_pages_step budget owner repo (issues_url owner repo)
                  d (Z.min cap 100) cap acc page st Hlt) as Hstep.
    cbv zeta in Hstep. rewrite (Hd page) in Hstep.
    change (mkRequest (issues_url owner repo)
              (params (page_request owner repo state cap page)))
      with (page_request owner repo state cap page) in Hstep.
    set (q := page_request owner repo state cap page) in *.
    set (r := fst (get_issues session q (world st))) in *.
    set (w := snd (get_issues session q (world st))) in *.
    destruct Hstep as (Hfail & Hempty & Hshort & Hcont).
    apply Z.ltb_lt in Hlt.
    pose proof (len_nonneg acc) as Hacc.
    assert (Hone : forall st1 out,
               trace st1 = trace st ++ [EvIssues q r] ->
               out = acc ++ contribution r ->
               stops_after cap acc r ->
               fetch_pages session (S budget) owner repo
                 (issues_url owner repo) d (Z.min cap 100) cap acc page st
               = Some (out, st1) ->
               exists rs st',
                 fetch_pages session (S budget) owner repo
                   (issues_url owner repo) d (Z.min cap 100) cap acc page st
                 = Some (acc ++ accumulated rs, st')
                 /\ trace st' = trace st ++ page_events owner repo state cap page rs
                 /\ (rs = [] <-> cap <= len acc)
                 /\ (forall rs1 r0 rs2, rs = rs1 ++ r0 :: rs2 ->
                        len (acc ++ accumulated rs1) < cap
                        /\ (rs2 = [] <-> stops_after cap (acc ++ accumulated rs1) r0))).
    { intros st1 out Ht -> Hstop Hrun. exists [r], st1.
      rewrite Hrun. unfold accumulated. cbn [map List.concat page_events].
      rewrite app_nil_r. repeat split; auto.
      - discriminate.
      - lia.
      - apply singleton_split in H. destruct H as (-> & -> & ->).
        cbn. rewrite app_nil_r. exact Hlt.
      - apply singleton_split in H. destruct H as (-> & -> & ->).
        intros _. cbn. rewrite app_nil_r. exact Hstop.
      - apply singleton_split in H. destruct H as (-> & -> & ->). auto. }
    destruct (Z.eq_dec (status_code r) 200) as [Hs|Hs].
    2:{ destruct (Hfail Hs) as (st2 & Hrun & _ & Ht).
        apply (Hone st2 acc); auto.
        - unfold contribution. apply Z.eqb_neq in Hs. rewrite Hs.
          rewrite app_nil_r. reflexivity.
        - left. exact Hs. }
    assert (Hc : contribution r = non_pull_requests (json r)).
    { unfold contribution. rewrite Hs. reflexivity. }
    assert (Hj : json r = [] \/ json r <> [])
      by (destruct (json r); [left; reflexivity | right; discriminate]).
    destruct Hj as [Ej|Hne].
    { eapply (Hone _ acc); [| | | apply Hempty; auto]; auto.
      - rewrite Hc, Ej. cbn. rewrite app_nil_r. reflexivity.
      - right. left. exact Ej. }
    destruct (Z_lt_le_dec (len (non_pull_requests (json r))) (Z.min cap 100))
      as [Hl|Hl].
    { eapply (Hone _ _); [| | | apply Hshort; auto]; auto.
      - rewrite Hc. reflexivity.
      - right. right. left. left. exact Hl. }
    rewrite (Hcont Hs Hne Hl).
    fold (page_request owner repo state cap page).
    destruct (IH (params q) (acc ++ non_pull_requests (json r)) (page + 1)
                (mkSt w (trace st ++ [EvIssues q r]) (stderr st)))
      as (rs & st' & Hrun & Ht & Hnil & Hsplit).
    { apply params_ready_next. }
    { rewrite len_app. lia. }
    exists (r :: rs), st'. cbn [trace] in Ht.
    pose proof (non_pull_requests_len (json r)) as Hfl.
    repeat split.
    + rewrite Hrun. unfold accumulated. cbn [map List.concat].
      rewrite Hc, app_assoc. reflexivity.
    + rewrite Ht. cbn [page_events]. rewrite <- app_assoc. reflexivity.
    + discriminate.
    + lia.
    + destruct rs1 as [|r1 rs1]; cbn in H.
      * cbn. rewrite app_nil_r. exact Hlt.
      * injection H as <- ->.
        destruct (Hsplit rs1 r0 rs2 eq_refl) as [Hg _].
        unfold accumulated in *. cbn [map List.concat].
        rewrite Hc, app_assoc. exact Hg.
    + destruct rs1 as [|r1 rs1]; cbn in H.
      * injection H as <- <-. intros ->. cbn. rewrite app_nil_r.
        right. right. right. rewrite Hc. apply Hnil. reflexivity.
      * injection H as <- ->.
        destruct (Hsplit rs1 r0 rs2 eq_refl) as [_ Hg].
        unfold accumulated in *. cbn [map List.concat].
        rewrite Hc, app_assoc. apply Hg.
    + destruct rs1 as [|r1 rs1]; cbn in H.
      * injection H as <- <-. cbn. rewrite app_nil_r.
        intros [Hx|[Hx|[[Hx|Hx]|Hx]]]; try congruence; try lia.
        apply Hnil. rewrite <- Hc. exact Hx.
      * injection H as <- ->.
        destruct (Hsplit rs1 r0 rs2 eq_refl) as [_ Hg].
        unfold accumulated in *. cbn [map List.concat].
        rewrite Hc, app_assoc. apply Hg.
Qed.

(** ** Runs of [get_issues_from_repo] *)

Lemma get_issues_from_repo_run (owner repo state : string) (cap : Z)
    (st : St World) :
  exists rs st',
    fetch_pages session (Z.to_nat cap) owner repo (issues_url owner repo)
      (initial_params state cap) (Z.min cap 100) cap [] 1 st
    = Some (accumulated rs, st')
    /\ get_issues_from_repo session owner repo state cap st
       = Some (slice_to (accumulated rs) cap, st')
    /\ trace st' = trace st ++ page_events owner repo state cap 1 rs
    /\ (rs = [] <-> cap <= 0)
    /\ (forall rs1 r rs2, rs = rs1 ++ r :: rs2 ->
           len (accumulated rs1) < cap
           /\ (rs2 = [] <-> stops_after cap (accumulated rs1) r)).
Proof.
  destruct (fetch_pages_run owner repo state cap (Z.to_nat cap)
              (initial_params state cap) [] 1 st)
    as (rs & st' & Hrun & Ht & Hnil & Hsplit).
  { apply params_ready_initial. }
  { cbn. lia. }
  exists rs, st'. cbn [app] in *. repeat split; try apply Hnil; auto.
  - unfold get_issues_from_repo, M.bind.
    fold (issues_url owner repo). fold (initial_params state cap).
    rewrite Hrun. reflexivity.
  - apply (Hsplit rs1 r rs2 H).
  - apply (Hsplit rs1 r rs2 H).
  - apply (Hsplit rs1 r rs2 H).
Qed.

Lemma get_issues_from_repo_total (owner repo state : string) (cap : Z)
    (st : St World) :
  exists res st',
    get_issues_from_repo session owner repo state cap st = Some (res, st').
Proof.
  destruct (get_issues_from_repo_run owner repo state cap st)
    as (rs & st' & _ & Hrun & _).
  eauto.
Qed.

Lemma get_issues_from_repo_clean (owner repo state : string) (cap : Z)
    (st st' : St World) (res : list Issue) :
  get_issues_from_repo session owner repo state cap st = Some (res, st') ->
  no_pull_requests res.
Proof.
  destruct (get_issues_from_repo_run owner repo state cap st)
    as (rs & st1 & _ & Hrun & _).
  rewrite Hrun. intros [= <- <-].
  apply slice_to_Forall, accumulated_clean.
Qed.

(** ** Runs of the loop over the repositories *)

Lemma fetch_chain_clean (org state : string) (cap : Z) (repos : list Repo)
    (st st' : St World) (results : list (list Issue)) :
  fetch_chain session org state cap repos st results st' ->
  no_pull_requests (List.concat results).
Proof.
  induction 1 as [|repo repos st st1 st2 issues results Hget _ IH]; cbn.
  - constructor.
  - apply Forall_app. split; [|exact IH].
    eapply get_issues_from_repo_clean; eassumption.
Qed.

Lemma fetch_chain_length (org state : string) (cap : Z) (repos : list Repo)
    (st st' : St World) (results : list (list Issue)) :
  fetch_chain session org state cap repos st results st' ->
  List.length results = List.length repos.
Proof. induction 1; cbn; congruence. Qed.

Lemma for_each_repo_run (org state : string) (cap : Z) :
  forall (repos : list Repo) (acc : list Issue) (st : St World),
  exists fetched skipped results st',
    repos = fetched ++ skipped
    /\ fetch_chain session org state cap fetched st results st'
    /\ for_each_repo session org state cap repos acc st
       = Some (acc ++ List.concat results, st')
    /\ (forall k, (0 < k < List.length results)%nat ->
           len (acc ++ List.concat (firstn k results)) < cap)
    /\ (skipped <> [] -> cap <= len (acc ++ List.concat results)).
Proof.
  induction repos as [|repo repos IH]; intros acc st.
  - exists [], [], [], st. cbn. rewrite app_nil_r.
    repeat split; try constructor; try lia; congruence.
  - destruct (get_issues_from_repo_total org (name repo) state cap st)
      as (issues & st1 & Hget).
    cbn [for_each_repo]. unfold M.bind. rewrite Hget.
    destruct (len (acc ++ issues) >=? cap) eqn:Hge.
    + exists [repo], repos, [issues], st1. cbn. rewrite app_nil_r.
      split; [reflexivity|]. split; [|split; [reflexivity|split]].
      * econstructor; [exact Hget | constructor].
      * intros k Hk. lia.
      * intros _. apply Z.geb_le in Hge. lia.
    + destruct (IH (acc ++ issues) st1)
        as (fetched & skipped & results & st' & Hsplit & Hchain & Hrun
            & Hbelow & Hskip).
      exists (repo :: fetched), skipped, (issues :: results), st'.
      rewrite Hrun. cbn [List.concat List.length]. rewrite <- !app_assoc.
      split; [cbn; congruence|]. split; [|split; [reflexivity|split]].
      * econstructor; eassumption.
      * intros k Hk. destruct k as [|k]; [lia|]. cbn [firstn List.concat].
        rewrite app_assoc. destruct k as [|k].
        -- cbn. rewrite app_nil_r.
           rewrite Z.geb_leb in Hge. apply Z.leb_gt in Hge. exact Hge.
        -- apply Hbelow. lia.
      * rewrite app_assoc. exact Hskip.
Qed.

(** ** Runs of [get_org_issues] *)

Lemma get_org_issues_failed (org state : string) (cap : Z) (st : St World) :
  let r := fst (get_repos session (repos_request org) (world st)) in
  let w := snd (get_repos session (repos_request org) (world st)) in
  status_code r <> 200 ->
  exists st',
    get_org_issues session org state cap st = Some ([], st')
    /\ world st' = w
    /\ trace st' = trace st ++ [EvRepos (repos_request org) r].
Proof.
  intros r w Hs. subst r w.
  unfold get_org_issues, M.bind, session_get_repos.
  fold (repos_request org).
  destruct (get_repos session (repos_request org) (world st)) as [r w].
  cbn [fst snd] in *. apply Z.eqb_neq in Hs. rewrite Hs. cbn.
  eexists. repeat split.
Qed.

Lemma get_org_issues_listed (org state : string) (cap : Z) (st : St World) :
  let r := fst (get_repos session (repos_request org) (world st)) in
  let w := snd (get_repos session (repos_request org) (world st)) in
  let st1 := mkSt w (trace st ++ [EvRepos (repos_request org) r]) (stderr st) in
  status_code r = 200 ->
  get_org_issues session org state cap st
  = match for_each_repo session org state cap (json r) [] st1 with
    | Some (all_issues, st') =>
        Some (slice_to (sort_by_updated_at_desc all_issues) cap, st')
    | None => None
    end.
Proof.
  intros r w st1 Hs. subst r w st1.
  unfold get_org_issues, M.bind, session_get_repos.
  fold (repos_request org).
  destruct (get_repos session (repos_request org) (world st)) as [r w].
  cbn [fst snd] in *. rewrite Hs. cbn [Z.eqb negb Pos.eqb].
  destruct (for_each_repo session org state cap (json r) [] _)
    as [[all_issues st']|]; reflexivity.
Qed.

End Runs.

(** ** Consequences for whole runs *)

Lemma accumulated_all_ok (rs : list (Response (list Issue))) :
  Forall (fun r => status_code r = 200) rs ->
  accumulated rs = List.concat (map (fun r => non_pull_requests (json r)) rs).
Proof.
  induction 1 as [|r rs Hr _ IH]; [reflexivity|].
  unfold accumulated in *. cbn [map List.concat]. rewrite IH.
  unfold contribution. rewrite Hr. reflexivity.
Qed.

Lemma slice_to_newest_first (l : list Issue) (n : Z) :
  StronglySorted newest_first_rel l -> newest_first (slice_to l n).
Proof.
  intros H. destruct (slice_to_firstn l n) as [k ->].
  apply StronglySorted_Sorted, StronglySorted_firstn, H.
Qed.

Lemma get_org_issues_run {World : Type} (session : Session World)
    (org state : string) (cap : Z) (st : St World) :
  exists res st',
    get_org_issues session org state cap st = Some (res, st')
    /\ no_pull_requests res
    /\ newest_first res
    /\ (0 <= cap -> len res <= cap).
Proof.
  destruct (Z.eq_dec
              (status_code (fst (get_repos session (repos_request org) (world st))))
              200) as [Hs|Hs].
  - rewrite (get_org_issues_listed session org state cap st Hs).
    destruct (for_each_repo_run session org state cap
                (json (fst (get_repos session (repos_request org) (world st))))
                []
                (mkSt (snd (get_repos session (repos_request org) (world st)))
                   (trace st ++
                      [EvRepos (repos_request org)
                         (fst (get_repos session (repos_request org) (world st)))])
                   (stderr st)))
      as (fetched & skipped & results & st' & _ & Hchain & Hrun & _).
    rewrite Hrun. cbn [app]. eexists _, st'. split; [reflexivity|].
    split; [|split].
    + apply slice_to_Forall.
      eapply Permutation_Forall; [apply sort_by_updated_at_desc_perm|].
      eapply fetch_chain_clean; eassumption.
    + apply slice_to_newest_first, sort_by_updated_at_desc_sorted.
    + apply slice_to_len.
  - destruct (get_org_issues_failed session org state cap st Hs)
      as (st' & Hrun & _).
    exists [], st'. split; [exact Hrun|].
    split; [constructor|]. split; [constructor|]. cbn. lia.
Qed.

(** * The properties of the specification *)

(** C1. For every cap [c >= 1] and every behaviour of the remote side, the
    Repository Issue Fetcher returns at most [c] issues; what it returns is
    the accumulation [all_issues] of its pagination loop cut by
    [all_issues[:c]], the loop itself not being bounded page by page. *)
Theorem get_issues_from_repo_at_most_cap {World : Type}
    (session : Session World) (owner repo state : string) (c : Z)
    (st : St World) :
  1 <= c ->
  exists res st' all_issues,
    get_issues_from_repo session owner repo state c st = Some (res, st')
    /\ fetch_pages session (Z.to_nat c) owner repo (issues_url owner repo)
         (initial_params state c) (Z.min c 100) c [] 1 st
       = Some (all_issues, st')
    /\ res = slice_to all_issues c
    /\ len res <= c.
Proof.
  intros Hc.
  destruct (get_issues_from_repo_run session owner repo state c st)
    as (rs & st' & Hloop & Hrun & _).
  exists (slice_to (accumulated rs) c), st', (accumulated rs).
  repeat split; auto. apply slice_to_len. lia.
Qed.

(** C2. Whatever the remote side answers, no issue returned by
    [get_issues_from_repo], and none returned by [get_org_issues], carries a
    pull-request back-reference. *)
Theorem no_pull_request_is_returned {World : Type} (session : Session World)
    (owner repo org state : string) (cap : Z) (st : St World) :
  (exists res st',
     get_issues_from_repo session owner repo state cap st = Some (res, st')
     /\ no_pull_requests res)
  /\ (exists res st',
        get_org_issues session org state cap st = Some (res, st')
        /\ no_pull_requests res).
Proof.
  split.
  - destruct (get_issues_from_repo_total session owner repo state cap st)
      as (res & st' & Hrun).
    exists res, st'. split; [exact Hrun|].
    eapply get_issues_from_repo_clean; eassumption.
  - destruct (get_org_issues_run session org state cap st)
      as (res & st' & Hrun & Hclean & _).
    exists res, st'. auto.
Qed.

(** C3. For every cap [c >= 1] and every behaviour of the remote side, the
    sequence returned by [get_org_issues] is sorted by last-update
    timestamp, descending, and has at most [c] elements. *)
Theorem get_org_issues_sorted_and_capped {World : Type}
    (session : Session World) (org state : string) (c : Z) (st : St World) :
  1 <= c ->
  exists res st',
    get_org_issues session org state c st = Some (res, st')
    /\ newest_first res
    /\ len res <= c.
Proof.
  intros Hc.
  destruct (get_org_issues_run session org state c st)
    as (res & st' & Hrun & _ & Hsorted & Hlen).
  exists res, st'. repeat split; auto. apply Hlen. lia.
Qed.

(** C4. When the repository-list request is answered with a status other
    than 200, [get_org_issues] returns the empty sequence, and the only
    exchange it has had with the remote side is that request: no issues
    request is made. *)
Theorem get_org_issues_repo_list_failure {World : Type}
    (session : Session World) (org state : string) (cap : Z) (st : St World) :
  status_code (fst (get_repos session (repos_request org) (world st))) <> 200 ->
  exists st',
    get_org_issues session org state cap st = Some ([], st')
    /\ trace st'
       = trace st
         ++ [EvRepos (repos_request org)
               (fst (get_repos session (repos_request org) (world st)))]
    /\ world st' = snd (get_repos session (repos_request org) (world st)).
Proof.
  intros Hs.
  destruct (get_org_issues_failed session org state cap st Hs)
    as (st' & Hrun & Hw & Ht).
  exists st'. auto.
Qed.

(** C5. [get_issues_from_repo] always returns.  When one of the responses
    [rs] it received has a status other than 200, that response is the last
    one, every response before it was successful, and the result is exactly
    the non-pull-request issues of those earlier pages, each page once and
    in order. *)
Theorem get_issues_from_repo_failure_mid_pagination {World : Type}
    (session : Session World) (owner repo state : string) (cap : Z)
    (st : St World) :
  exists res st' rs,
    get_issues_from_repo session owner repo state cap st = Some (res, st')
    /\ trace st' = trace st ++ page_events owner repo state cap 1 rs
    /\ forall rs1 r rs2,
         rs = rs1 ++ r :: rs2 ->
         status_code r <> 200 ->
         rs2 = []
         /\ Forall (fun p => status_code p = 200) rs1
         /\ res = List.concat (map (fun p => non_pull_requests (json p)) rs1).
Proof.
  destruct (get_issues_from_repo_run session owner repo state cap st)
    as (rs & st' & _ & Hrun & Ht & _ & Hsplit).
  exists (slice_to (accumulated rs) cap), st', rs.
  split; [exact Hrun|]. split; [exact Ht|].
  intros rs1 r rs2 Hrs Hs.
  destruct (Hsplit rs1 r rs2 Hrs) as [Hlt Hstop].
  assert (Hlast : rs2 = []) by (apply Hstop; left; exact Hs).
  assert (Hprior : Forall (fun p => status_code p = 200) rs1).
  { apply Forall_forall. intros p Hp.
    destruct (in_split p rs1 Hp) as (a & b & ->).
    destruct (Z.eq_dec (status_code p) 200) as [Hok|Hko]; [exact Hok|].
    rewrite <- app_assoc in Hrs. cbn [app] in Hrs.
    destruct (Hsplit a p (b ++ r :: rs2) Hrs) as [_ Hp_stop].
    assert (Habs : b ++ r :: rs2 = []) by (apply Hp_stop; left; exact Hko).
    destruct b; discriminate. }
  repeat split; auto.
  subst rs rs2. rewrite accumulated_app.
  unfold accumulated at 2. cbn [map List.concat].
  unfold contribution. apply Z.eqb_neq in Hs. rewrite Hs. cbn [app].
  rewrite app_nil_r, slice_to_all by lia.
  apply accumulated_all_ok, Hprior.
Qed.

(** C6. When the repository list is obtained, [get_org_issues] invokes the
    fetcher once for each repository of a prefix [fetched] of the listing,
    in listing order and each time with the same state filter and the full
    cap.  After every fetch but the last the running concatenation was
    still below the cap; repositories are left out ([skipped]) only when
    the concatenation has reached the cap; the last fetch is kept whole in
    the concatenation, which is then sorted and cut. *)
Theorem get_org_issues_fetch_order {World : Type} (session : Session World)
    (org state : string) (cap : Z) (st : St World) :
  let r := fst (get_repos session (repos_request org) (world st)) in
  let w := snd (get_repos session (repos_request org) (world st)) in
  let st1 := mkSt w (trace st ++ [EvRepos (repos_request org) r]) (stderr st) in
  status_code r = 200 ->
  exists fetched skipped results st',
    json r = fetched ++ skipped
    /\ fetch_chain session org state cap fetched st1 results st'
    /\ get_org_issues session org state cap st
       = Some (slice_to (sort_by_updated_at_desc (List.concat results)) cap, st')
    /\ (forall k, (0 < k < List.length results)%nat ->
           len (List.concat (firstn k results)) < cap)
    /\ (skipped <> [] -> cap <= len (List.concat results)).
Proof.
  intros r w st1 Hs.
  rewrite (get_org_issues_listed session org state cap st Hs).
  fold r w st1.
  destruct (for_each_repo_run session org state cap (json r) [] st1)
    as (fetched & skipped & results & st' & Hsplit & Hchain & Hrun
        & Hbelow & Hskip).
  rewrite Hrun. cbn [app] in *.
  exists fetched, skipped, results, st'. auto.
Qed.

Lemma page_events_nth_error (owner repo state : string) (cap : Z) :
  forall (rs : list (Response (list Issue))) (page : Z) (i : nat)
         (r : Response (list Issue)),
    nth_error rs i = Some r ->
    nth_error (page_events owner repo state cap page rs) i
    = Some (EvIssues (page_request owner repo state cap (page + Z.of_nat i)) r).
Proof.
  induction rs as [|r0 rs IH]; intros page i r H.
  - destruct i; discriminate.
  - destruct i as [|i]; cbn in *.
    + injection H as ->. rewrite Z.add_0_r. reflexivity.
    + rewrite (IH (page + 1) i r H). do 3 f_equal. lia.
Qed.

(** C7. The pagination of [get_issues_from_repo] is the sequence of
    exchanges [page_events ... 1 rs]: the [i]-th request (from 0) asks for
    page [1 + i] with page size [min(cap, 100)].  No request at all is made
    exactly when the cap is already reached by the empty accumulation; and
    a response is the last one exactly when one of the stopping conditions
    [stops_after] holds for it. *)
Theorem get_issues_from_repo_pagination {World : Type}
    (session : Session World) (owner repo state : string) (cap : Z)
    (st : St World) :
  exists res st' rs,
    get_issues_from_repo session owner repo state cap st = Some (res, st')
    /\ res = slice_to (accumulated rs) cap
    /\ trace st' = trace st ++ page_events owner repo state cap 1 rs
    /\ (forall i r, nth_error rs i = Some r ->
          nth_error (trace st') (List.length (trace st) + i)
          = Some (EvIssues
                    (page_request owner repo state cap (1 + Z.of_nat i)) r))
    /\ (rs = [] <-> cap <= 0)
    /\ (forall rs1 r rs2,
          rs = rs1 ++ r :: rs2 ->
          (rs2 = [] <-> stops_after cap (accumulated rs1) r)).
Proof.
  destruct (get_issues_from_repo_run session owner repo state cap st)
    as (rs & st' & _ & Hrun & Ht & Hnil & Hsplit).
  exists (slice_to (accumulated rs) cap), st', rs.
  split; [exact Hrun|]. split; [reflexivity|]. split; [exact Ht|].
  split; [|split; [exact Hnil|]].
  - intros i r Hi. rewrite Ht.
    rewrite nth_error_app2 by lia.
    replace (List.length (trace st) + i - List.length (trace st))%nat
      with i by lia.
    apply page_events_nth_error, Hi.
  - intros rs1 r rs2 Hrs. apply (Hsplit rs1 r rs2 Hrs).
Qed.

(** C8. If the pages the remote side returned during a run of
    [get_issues_from_repo], taken one after the other, are sorted by update
    time, descending, then so is the returned sequence. *)
Theorem get_issues_from_repo_sorted {World : Type}
    (session : Session World) (owner repo state : string) (cap : Z)
    (st : St World) :
  exists res st' rs,
    get_issues_from_repo session owner repo state cap st = Some (res, st')
    /\ trace st' = trace st ++ page_events owner repo state cap 1 rs
    /\ (newest_first (pages rs) -> newest_first res).
Proof.
  destruct (get_issues_from_repo_run session owner repo state cap st)
    as (rs & st' & _ & Hrun & Ht & _).
  exists (slice_to (accumulated rs) cap), st', rs.
  split; [exact Hrun|]. split; [exact Ht|].
  intros Hsorted. apply slice_to_newest_first.
  rewrite accumulated_pages. apply StronglySorted_filter.
  apply newest_first_strongly, Hsorted.
Qed.

(** C9. An organization whose listing is exactly [A; B], where the fetch of
    [A] yields two issues [ia] and the fetch of [B] yields two issues [ib],
    queried with cap 3: [get_org_issues] returns three issues, newest
    first, which are the four merged issues [ia ++ ib] without the one
    updated least recently. *)
Theorem get_org_issues_two_repos_cap_three {World : Type}
    (session : Session World) (org state : string) (st : St World)
    (A B : Repo) (ia ib : list Issue) (st1 st2 : St World) :
  let r := fst (get_repos session (repos_request org) (world st)) in
  let w := snd (get_repos session (repos_request org) (world st)) in
  let st0 := mkSt w (trace st ++ [EvRepos (repos_request org) r]) (stderr st) in
  status_code r = 200 ->
  json r = [A; B] ->
  get_issues_from_repo session org (name A) state 3 st0 = Some (ia, st1) ->
  List.length ia = 2%nat ->
  get_issues_from_repo session org (name B) state 3 st1 = Some (ib, st2) ->
  List.length ib = 2%nat ->
  exists res oldest,
    get_org_issues session org state 3 st = Some (res, st2)
    /\ List.length res = 3%nat
    /\ newest_first res
    /\ newest_first (res ++ [oldest])
    /\ Permutation (ia ++ ib) (res ++ [oldest]).
Proof.
  intros r w st0 Hs Hj HA HlA HB HlB.
  rewrite (get_org_issues_listed session org state 3 st Hs).
  fold r w st0. rewrite Hj. cbn [for_each_repo]. unfold M.bind.
  rewrite HA. cbn [app].
  assert (EA : (len ia >=? 3) = false) by (unfold len; rewrite HlA; reflexivity).
  rewrite EA, HB.
  assert (EB : (len (ia ++ ib) >=? 3) = true)
    by (unfold len; rewrite length_app, HlA, HlB; reflexivity).
  rewrite EB. unfold M.ret.
  pose proof (sort_by_updated_at_desc_perm (ia ++ ib)) as Hperm.
  pose proof (sort_by_updated_at_desc_sorted (ia ++ ib)) as Hsorted.
  assert (Hlen : List.length (sort_by_updated_at_desc (ia ++ ib)) = 4%nat).
  { rewrite <- (Permutation_length Hperm), length_app, HlA, HlB. reflexivity. }
  destruct (sort_by_updated_at_desc (ia ++ ib))
    as [|s1 [|s2 [|s3 [|s4 [|s5 s]]]]]; try discriminate.
  exists [s1; s2; s3], s4. cbn.
  split; [reflexivity|]. split; [reflexivity|].
  split; [|split].
  - apply (slice_to_newest_first [s1; s2; s3; s4] 3 Hsorted).
  - apply StronglySorted_Sorted, Hsorted.
  - exact Hperm.
Qed.

(** C10. For every cap [c <= 0], [get_issues_from_repo] returns the empty
    sequence and leaves the state as it found it: no request is made. *)
Theorem get_issues_from_repo_nonpositive_cap {World : Type}
    (session : Session World) (owner repo state : string) (c : Z)
    (st : St World) :
  c <= 0 ->
  get_issues_from_repo session owner repo state c st = Some ([], st).
Proof.
  intros Hc. unfold get_issues_from_repo, M.bind.
  rewrite fetch_pages_done by (apply Z.ltb_ge; cbn; lia).
  unfold M.ret. rewrite slice_to_nil. reflexivity.
Qed.

(** * Concrete runs *)

(** The cap is not applied page by page: with cap 150 the loop accumulates
    two pages of 100 issues, and the result is cut to 150. *)
Example accumulation_exceeds_cap :
  option_map (fun p => len (fst p))
    (fetch_pages scripted (Z.to_nat 150) "o" "r" (issues_url "o" "r")
       (initial_params "open" 150) (Z.min 150 100) 150 [] 1 (start large_repo))
  = Some 200
  /\ option_map (fun p => len (fst p))
       (get_issues_from_repo scripted "o" "r" "open" 150 (start large_repo))
     = Some 150.
Proof. split; vm_compute; reflexivity. Qed.

Lemma get_issues_from_repo_at_most_cap_witness :
  1 <= 150
  /\ exists res st' all_issues,
       get_issues_from_repo scripted "o" "r" "open" 150 (start large_repo)
       = Some (res, st')
       /\ fetch_pages scripted (Z.to_nat 150) "o" "r" (issues_url "o" "r")
            (initial_params "open" 150) (Z.min 150 100) 150 [] 1
            (start large_repo)
          = Some (all_issues, st')
       /\ res = slice_to all_issues 150
       /\ len res <= 150.
Proof.
  split; [lia|].
  apply (get_issues_from_repo_at_most_cap scripted "o" "r" "open" 150
           (start large_repo)).
  lia.
Defined.

Lemma get_org_issues_sorted_and_capped_witness :
  1 <= 3
  /\ exists res st',
       get_org_issues scripted "org" "open" 3 (start two_repo_org)
       = Some (res, st')
       /\ newest_first res
       /\ len res <= 3.
Proof.
  split; [lia|].
  apply (get_org_issues_sorted_and_capped scripted "org" "open" 3
           (start two_repo_org)).
  lia.
Defined.

Lemma get_org_issues_repo_list_failure_witness :
  exists st',
    get_org_issues scripted "org" "open" 3 (start unlisted_org)
    = Some ([], st')
    /\ trace st'
       = [EvRepos (repos_request "org")
            (mkResponse 503 "Service Unavailable" [])]
    /\ world st' = mkScript [ok [sample_a1; sample_a2]] [].
Proof.
  apply (get_org_issues_repo_list_failure scripted "org" "open" 3
           (start unlisted_org)).
  vm_compute. discriminate.
Defined.

Lemma get_org_issues_fetch_order_witness :
  exists fetched skipped results st',
    [mkRepo "A"; mkRepo "B"] = fetched ++ skipped
    /\ fetch_chain scripted "org" "open" 1 fetched
         (mkSt (mkScript (issue_script two_repo_org) [])
               [EvRepos (repos_request "org") (ok [mkRepo "A"; mkRepo "B"])]
               [])
         results st'
    /\ get_org_issues scripted "org" "open" 1 (start two_repo_org)
       = Some (slice_to (sort_by_updated_at_desc (List.concat results)) 1, st')
    /\ (forall k, (0 < k < List.length results)%nat ->
           len (List.concat (firstn k results)) < 1)
    /\ (skipped <> [] -> 1 <= len (List.concat results)).
Proof.
  apply (get_org_issues_fetch_order scripted "org" "open" 1
           (start two_repo_org)).
  reflexivity.
Defined.

Lemma get_org_issues_two_repos_cap_three_witness :
  exists res oldest,
    get_org_issues scripted "org" "open" 3 (start two_repo_org)
    = Some (res,
            mkSt (mkScript [] [])
              [EvRepos (repos_request "org") (ok [mkRepo "A"; mkRepo "B"]);
               EvIssues (page_request "org" "A" "open" 3 1)
                 (ok [sample_a1; sample_a2]);
               EvIssues (page_request "org" "B" "open" 3 1)
                 (ok [sample_b1; sample_b2])]
              [])
    /\ List.length res = 3%nat
    /\ newest_first res
    /\ newest_first (res ++ [oldest])
    /\ Permutation ([sample_a1; sample_a2] ++ [sample_b1; sample_b2])
         (res ++ [oldest]).
Proof.
  apply (get_org_issues_two_repos_cap_three scripted "org" "open"
           (start two_repo_org) (mkRepo "A") (mkRepo "B")
           [sample_a1; sample_a2] [sample_b1; sample_b2]
           (mkSt (mkScript [ok [sample_b1; sample_b2]] [])
              [EvRepos (repos_request "org") (ok [mkRepo "A"; mkRepo "B"]);
               EvIssues (page_request "org" "A" "open" 3 1)
                 (ok [sample_a1; sample_a2])]
              []));
    reflexivity.
Defined.

Lemma get_issues_from_repo_nonpositive_cap_witness :
  0 <= 0
  /\ get_issues_from_repo scripted "o" "r" "open" 0 (start one_page_repo)
     = Some ([], start one_page_repo).
Proof.
  split; [lia|].
  apply (get_issues_from_repo_nonpositive_cap scripted "o" "r" "open" 0
           (start one_page_repo)).
  lia.
Defined.

Lemma get_issues_from_repo_failure_mid_pagination_witness :
  exists res st',
    get_issues_from_repo scripted "o" "r" "open" 101 (start failing_repo)
    = Some (res, st')
    /\ res = List.concat (map (fun p => non_pull_requests (json p))
                            [ok (repeat sample_a1 100)]).
Proof.
  destruct (get_issues_from_repo_failure_mid_pagination scripted "o" "r"
              "open" 101 (start failing_repo))
    as (res & st' & rs & Hrun & Ht & Hfail).
  exists res, st'. split; [exact Hrun|].
  assert (Hst : trace st'
                = [EvIssues (page_request "o" "r" "open" 101 1)
                     (ok (repeat sample_a1 100));
                   EvIssues (page_request "o" "r" "open" 101 2)
                     (mkResponse 500 "Server Error" [])]).
  { vm_compute in Hrun. injection Hrun as _ <-. reflexivity. }
  rewrite Hst in Ht. cbn [start trace app] in Ht.
  destruct rs as [|r1 [|r2 [|r3 rs]]]; cbn in Ht; try discriminate.
  injection Ht as <- <-.
  apply (Hfail [ok (repeat sample_a1 100)]
               (mkResponse 500 "Server Error" []) [] eq_refl).
  cbn. discriminate.
Defined.

Lemma get_issues_from_repo_sorted_witness :
  exists res st',
    get_issues_from_repo scripted "o" "r" "open" 5 (start one_page_repo)
    = Some (res, st')
    /\ newest_first res.
Proof.
  destruct (get_issues_from_repo_sorted scripted "o" "r" "open" 5
              (start one_page_repo))
    as (res & st' & rs & Hrun & Ht & Hsorted).
  exists res, st'. split; [exact Hrun|].
  assert (Hst : trace st'
                = [EvIssues (page_request "o" "r" "open" 5 1)
                     (ok [sample_b1; pull_at 9 "2024-03-15T00:00:00Z";
                          sample_a1; sample_b2; sample_a2])]).
  { vm_compute in Hrun. injection Hrun as _ <-. reflexivity. }
  rewrite Hst in Ht. cbn [start trace app] in Ht.
  destruct rs as [|r1 [|r2 rs]]; cbn in Ht; try discriminate.
  injection Ht as <-.
  apply Hsorted. cbn.
  repeat (constructor; try reflexivity).
Defined.

(** * Further properties of the collection routines *)

Section Effects.

Context {World : Type}.
Variable session : Session World.

(** One iteration of the loop, with the state it leaves. *)
Lemma fetch_pages_unfold (budget : nat) (owner repo u : string) (d : Dict)
    (per_page cap : Z) (acc : list Issue) (page : Z) (st : St World) :
  (len acc <? cap) = true ->
  fetch_pages session (S budget) owner repo u d per_page cap acc page st
  = let q := mkRequest u (dict_set "page" (PInt page) d) in
    let r := fst (get_issues session q (world st)) in
    let w := snd (get_issues session q (world st)) in
    let st1 := mkSt w (trace st ++ [EvIssues q r]) (stderr st) in
    if negb (status_code r =? 200) then
      Some (acc, mkSt w (trace st ++ [EvIssues q r])
                   (stderr st ++ failure_report owner repo r))
    else if is_empty (json r) then Some (acc, st1)
    else if len (non_pull_requests (json r)) <? per_page then
      Some (acc ++ non_pull_requests (json r), st1)
    else
      fetch_pages session budget owner repo u
        (dict_set "page" (PInt page) d) per_page cap
        (acc ++ non_pull_requests (json r)) (page + 1) st1.
Proof.
  intros Hlt. cbn [fetch_pages]. rewrite Hlt. cbv zeta.
  unfold M.bind, session_get_issues.
  destruct (get_issues session _ (world st)) as [r w]. cbn [fst snd].
  destruct (status_code r =? 200); cbn [negb].
  - destruct (is_empty (json r)); [reflexivity|].
    destruct (len (non_pull_requests (json r)) <? per_page); reflexivity.
  - unfold M.eprint, M.ret, failure_report. cbn [world trace stderr].
    rewrite <- !app_assoc. reflexivity.
Qed.

(** The effects of a run of the loop: what it records, what it prints, and
    that the responses are the answers of the remote side. *)
Lemma fetch_pages_effects (owner repo state : string) (cap : Z) :
  forall (budget : nat) (d : Dict) (acc : list Issue) (page : Z)
         (st : St World),
    params_ready owner repo state cap d ->
    cap - len acc <= Z.of_nat budget ->
    exists rs st',
      fetch_pages session budget owner repo (issues_url owner repo) d
                  (Z.min cap 100) cap acc page st
      = Some (acc ++ accumulated rs, st')
      /\ trace st' = trace st ++ page_events owner repo state cap page rs
      /\ stderr st' = stderr st ++ reported owner repo rs
      /\ page_answers session owner repo state cap page (List.length rs)
           (world st)
         = (rs, world st').
Proof.
  induction budget as [|budget IH]; intros d acc page st Hd Hb;
    destruct (len acc <? cap) eqn:Hlt.
  2, 4: (exists [], st; rewrite fetch_pages_done by exact Hlt;
         cbn; rewrite !app_nil_r; auto).
  - apply Z.ltb_lt in Hlt. lia.
  - rewrite (fetch_pages_unfold budget owner repo (issues_url owner repo) d
               (Z.min cap 100) cap acc page st Hlt).
    cbv zeta. rewrite (Hd page).
    change (mkRequest (issues_url owner repo)
              (params (page_request owner repo state cap page)))
      with (page_request owner repo state cap page).
    set (q := page_request owner repo state cap page).
    destruct (get_issues session q (world st)) as [r w] eqn:Eget.
    cbn [fst snd].
    assert (Hone : forall out st1,
               out = acc ++ contribution r ->
               trace st1 = trace st ++ [EvIssues q r] ->
               stderr st1
               = stderr st ++ (if status_code r =? 200 then []
                               else failure_report owner repo r) ->
               world st1 = w ->
               exists rs st',
                 Some (out, st1) = Some (acc ++ accumulated rs, st')
                 /\ trace st' = trace st ++ page_events owner repo state cap page rs
                 /\ stderr st' = stderr st ++ reported owner repo rs
                 /\ page_answers session owner repo state cap page
                      (List.length rs) (world st)
                    = (rs, world st')).
    { intros out st1 -> Ht He Hw. exists [r], st1.
      unfold accumulated, reported. cbn [map List.concat page_events].
      rewrite !app_nil_r. repeat split; auto.
      cbn. fold q. rewrite Eget, Hw. reflexivity. }
    apply Z.ltb_lt in Hlt. pose proof (len_nonneg acc) as Hacc.
    unfold contribution in Hone.
    destruct (status_code r =? 200) eqn:Hs; cbn [negb].
    2:{ apply Hone; auto. rewrite app_nil_r. reflexivity. }
    destruct (json r) as [|i l] eqn:Ej; cbn [is_empty].
    { apply Hone; auto; cbn; rewrite app_nil_r; reflexivity. }
    rewrite <- Ej in *.
    destruct (len (non_pull_requests (json r)) <? Z.min cap 100) eqn:Hl.
    { apply Hone; auto. cbn. rewrite app_nil_r. reflexivity. }
    apply Z.ltb_ge in Hl.
    destruct (IH (params q) (acc ++ non_pull_requests (json r)) (page + 1)
                (mkSt w (trace st ++ [EvIssues q r]) (stderr st)))
      as (rs & st' & Hrun & Ht & He & Hw).
    { apply params_ready_next. }
    { rewrite len_app. lia. }
    exists (r :: rs), st'. cbn [trace stderr world] in *.
    repeat split.
    + rewrite Hrun. unfold accumulated, contribution.
      cbn [map List.concat]. rewrite Hs, app_assoc. reflexivity.
    + rewrite Ht. cbn [page_events]. rewrite <- app_assoc. reflexivity.
    + rewrite He. unfold reported. cbn [map List.concat]. rewrite Hs.
      reflexivity.
    + cbn [List.length page_answers]. fold q. rewrite Eget, Hw. reflexivity.
Qed.

Lemma page_events_inj (owner repo state : string) (cap : Z) :
  forall (rs rs' : list (Response (list Issue))) (page : Z),
    page_events owner repo state cap page rs
    = page_events owner repo state cap page rs' ->
    rs = rs'.
Proof.
  induction rs as [|r rs IH]; intros [|r' rs'] page H; cbn in H;
    try discriminate; [reflexivity|].
  injection H as -> H. f_equal. eapply IH; eassumption.
Qed.

(** The whole run of [get_issues_from_repo]. *)
Lemma get_issues_from_repo_full_run (owner repo state : string) (cap : Z)
    (st : St World) :
  exists rs st',
    get_issues_from_repo session owner repo state cap st
    = Some (slice_to (accumulated rs) cap, st')
    /\ trace st' = trace st ++ page_events owner repo state cap 1 rs
    /\ stderr st' = stderr st ++ reported owner repo rs
    /\ page_answers session owner repo state cap 1 (List.length rs) (world st)
       = (rs, world st')
    /\ (rs = [] <-> cap <= 0)
    /\ (forall rs1 r rs2, rs = rs1 ++ r :: rs2 ->
           len (accumulated rs1) < cap
           /\ (rs2 = [] <-> stops_after cap (accumulated rs1) r)).
Proof.
  destruct (get_issues_from_repo_run session owner repo state cap st)
    as (rs & st' & Hloop & Hrun & Ht & Hnil & Hsplit).
  destruct (fetch_pages_effects owner repo state cap (Z.to_nat cap)
              (initial_params state cap) [] 1 st)
    as (rs2 & st2 & Hloop2 & Ht2 & He2 & Hw2).
  { apply params_ready_initial. }
  { cbn. lia. }
  rewrite Hloop in Hloop2. cbn [app] in Hloop2.
  injection Hloop2 as _ <-.
  rewrite Ht in Ht2. apply app_inv_head in Ht2.
  apply page_events_inj in Ht2. subst rs2.
  exists rs, st'. auto 10.
Qed.

End Effects.

(** Every page that did not end the pagination added at least a full page
    to the accumulation. *)
Lemma continuing_pages_accumulate (cap : Z)
    (rs : list (Response (list Issue))) :
  (forall rs1 r rs2, rs = rs1 ++ r :: rs2 ->
     len (accumulated rs1) < cap
     /\ (rs2 = [] <-> stops_after cap (accumulated rs1) r)) ->
  forall rs1 r rs2, rs = rs1 ++ r :: rs2 ->
    Z.min cap 100 * len rs1 <= len (accumulated rs1).
Proof.
  intros Hsplit rs1. induction rs1 as [|r0 rs0 IH] using rev_ind;
    intros r rs2 Hrs.
  - cbn. lia.
  - rewrite <- app_assoc in Hrs. cbn [app] in Hrs.
    specialize (IH r0 (r :: rs2) Hrs).
    destruct (Hsplit rs0 r0 (r :: rs2) Hrs) as [_ Hstop].
    assert (Hgo : ~ stops_after cap (accumulated rs0) r0).
    { intros Hs. apply Hstop in Hs. discriminate. }
    unfold stops_after in Hgo.
    assert (Hs : status_code r0 = 200).
    { destruct (Z.eq_dec (status_code r0) 200); tauto. }
    assert (Hfull : Z.min cap 100 <= len (non_pull_requests (json r0))).
    { destruct (Z_lt_le_dec (len (non_pull_requests (json r0)))
                  (Z.min cap 100)); tauto. }
    rewrite accumulated_app, !len_app.
    unfold accumulated at 2. cbn [map List.concat].
    unfold contribution. rewrite Hs. cbn [Z.eqb Pos.eqb].
    rewrite app_nil_r. change (len [r0]) with 1.
    rewrite Z.mul_add_distr_l, Z.mul_1_r. lia.
Qed.

(** X1. The number of page requests of one run of [get_issues_from_repo]:
    none for a cap [<= 0], otherwise at least one and at most
    [ceil(cap / 100)]. *)
Theorem get_issues_from_repo_request_bound {World : Type}
    (session : Session World) (owner repo state : string) (cap : Z)
    (st : St World) :
  exists res st' rs,
    get_issues_from_repo session owner repo state cap st = Some (res, st')
    /\ trace st' = trace st ++ page_events owner repo state cap 1 rs
    /\ (cap <= 0 -> rs = [])
    /\ (1 <= cap -> 1 <= len rs <= (cap + 99) / 100).
Proof.
  destruct (get_issues_from_repo_run session owner repo state cap st)
    as (rs & st' & _ & Hrun & Ht & Hnil & Hsplit).
  exists (slice_to (accumulated rs) cap), st', rs.
  split; [exact Hrun|]. split; [exact Ht|]. split; [apply Hnil|].
  intros Hcap.
  destruct rs as [|r0 rs0] using rev_ind.
  - assert (cap <= 0) by (apply Hnil; reflexivity). lia.
  - clear IHrs0.
    pose proof (continuing_pages_accumulate cap _ Hsplit rs0 r0 [] eq_refl)
      as Hgrow.
    destruct (Hsplit rs0 r0 [] eq_refl) as [Hlt _].
    rewrite len_app. change (len [r0]) with 1.
    pose proof (len_nonneg rs0) as H0.
    split; [lia|].
    apply Z.div_le_lower_bound; [lia|].
    destruct (Z_le_gt_dec cap 100) as [Hsmall|Hlarge].
    + rewrite Z.min_l in Hgrow by lia.
      assert (len rs0 = 0).
      { destruct (Z.eq_dec (len rs0) 0) as [E|E]; [exact E|].
        assert (cap * 1 <= cap * len rs0)
          by (apply Z.mul_le_mono_nonneg_l; lia).
        lia. }
      lia.
    + rewrite Z.min_r in Hgrow by lia. lia.
Qed.

(** X2. With a cap between 1 and 100 the fetcher never asks for a second
    page: it makes exactly one request, for page 1 with page size [cap],
    and returns the first [cap] non-pull-request issues of the answer
    (nothing when the request failed). *)
Theorem get_issues_from_repo_single_request {World : Type}
    (session : Session World) (owner repo state : string) (cap : Z)
    (st : St World) :
  1 <= cap <= 100 ->
  let q := page_request owner repo state cap 1 in
  let r := fst (get_issues session q (world st)) in
  exists st',
    get_issues_from_repo session owner repo state cap st
    = Some (slice_to (contribution r) cap, st')
    /\ trace st' = trace st ++ [EvIssues q r]
    /\ world st' = snd (get_issues session q (world st)).
Proof.
  intros Hcap q r.
  destruct (get_issues_from_repo_full_run session owner repo state cap st)
    as (rs & st' & Hrun & Ht & _ & Hw & Hnil & Hsplit).
  assert (Hlen : len rs = 1).
  { destruct rs as [|r0 rs0] using rev_ind.
    - assert (cap <= 0) by (apply Hnil; reflexivity). lia.
    - clear IHrs0.
      pose proof (continuing_pages_accumulate cap _ Hsplit rs0 r0 [] eq_refl)
        as Hgrow.
      destruct (Hsplit rs0 r0 [] eq_refl) as [Hlt _].
      rewrite len_app. change (len [r0]) with 1.
      pose proof (len_nonneg rs0) as H0.
      rewrite Z.min_l in Hgrow by lia.
      destruct (Z.eq_dec (len rs0) 0) as [E|E]; [lia|].
      assert (cap * 1 <= cap * len rs0)
        by (apply Z.mul_le_mono_nonneg_l; lia).
      lia. }
  destruct rs as [|r0 [|r1 rs]]; try (cbn in Hlen; lia).
  cbn [List.length page_answers] in Hw. fold q in Hw.
  destruct (get_issues session q (world st)) as [r' w'] eqn:Eget.
  injection Hw as -> ->. subst r. cbn [fst snd].
  exists st'. unfold accumulated in Hrun. cbn [map List.concat] in Hrun.
  rewrite app_nil_r in Hrun. auto.
Qed.

(** X3. What [get_issues_from_repo] prints to standard error: nothing as
    long as every response has status 200; when the last response failed,
    exactly three lines naming the repository, the status code and the
    response body. *)
Theorem get_issues_from_repo_failure_is_reported {World : Type}
    (session : Session World) (owner repo state : string) (cap : Z)
    (st : St World) :
  exists res st' rs,
    get_issues_from_repo session owner repo state cap st = Some (res, st')
    /\ trace st' = trace st ++ page_events owner repo state cap 1 rs
    /\ (Forall (fun r => status_code r = 200) rs -> stderr st' = stderr st)
    /\ (forall rs1 r rs2, rs = rs1 ++ r :: rs2 -> status_code r <> 200 ->
          stderr st'
          = stderr st
            ++ [("エラー: リポジトリ " ++ owner ++ "/" ++ repo
                 ++ " のissues取得に失敗しました。")%string;
                ("ステータスコード: " ++ str_of_Z (status_code r))%string;
                ("レスポンス: " ++ text r)%string]).
Proof.
  destruct (get_issues_from_repo_full_run session owner repo state cap st)
    as (rs & st' & Hrun & Ht & He & _ & _ & Hsplit).
  exists (slice_to (accumulated rs) cap), st', rs.
  split; [exact Hrun|]. split; [exact Ht|].
  assert (Hquiet : forall l, Forall (fun r : Response (list Issue) =>
                                       status_code r = 200) l ->
                             reported owner repo l = []).
  { induction 1 as [|x l Hx _ IH]; [reflexivity|].
    unfold reported in *. cbn [map List.concat]. rewrite Hx, IH.
    reflexivity. }
  split.
  - intros Hok. rewrite He, (Hquiet rs Hok), app_nil_r. reflexivity.
  - intros rs1 r rs2 Hrs Hs.
    destruct (Hsplit rs1 r rs2 Hrs) as [_ Hstop].
    assert (Hlast : rs2 = []) by (apply Hstop; left; exact Hs).
    assert (Hprior : Forall (fun p => status_code p = 200) rs1).
    { apply Forall_forall. intros p Hp.
      destruct (in_split p rs1 Hp) as (a & b & ->).
      destruct (Z.eq_dec (status_code p) 200) as [Hok|Hko]; [exact Hok|].
      rewrite <- app_assoc in Hrs. cbn [app] in Hrs.
      destruct (Hsplit a p (b ++ r :: rs2) Hrs) as [_ Hp_stop].
      assert (Habs : b ++ r :: rs2 = []) by (apply Hp_stop; left; exact Hko).
      destruct b; discriminate. }
    rewrite He. subst rs rs2. f_equal.
    unfold reported. rewrite map_app, concat_app.
    fold (reported owner repo rs1). rewrite (Hquiet rs1 Hprior).
    cbn [map List.concat app]. apply Z.eqb_neq in Hs. rewrite Hs.
    rewrite app_nil_r. reflexivity.
Qed.

(** X4. A successful, non-empty first page whose non-pull-request issues
    are fewer than the page size ends the run: these issues are returned
    in full, one request has been made, and nothing is printed. *)
Theorem get_issues_from_repo_short_first_page {World : Type}
    (session : Session World) (owner repo state : string) (cap : Z)
    (st : St World) :
  let q := page_request owner repo state cap 1 in
  let r := fst (get_issues session q (world st)) in
  status_code r = 200 ->
  json r <> [] ->
  len (non_pull_requests (json r)) < Z.min cap 100 ->
  get_issues_from_repo session owner repo state cap st
  = Some (non_pull_requests (json r),
          mkSt (snd (get_issues session q (world st)))
               (trace st ++ [EvIssues q r]) (stderr st)).
Proof.
  intros q r Hs Hne Hshort.
  pose proof (len_nonneg (non_pull_requests (json r))) as H0.
  unfold get_issues_from_repo, M.bind.
  fold (issues_url owner repo). fold (initial_params state cap).
  destruct (Z.to_nat cap) as [|budget] eqn:Eb; [lia|].
  rewrite fetch_pages_unfold by (apply Z.ltb_lt; cbn; lia).
  cbv zeta. rewrite (params_ready_initial owner repo state cap 1).
  change (mkRequest (issues_url owner repo)
            (params (page_request owner repo state cap 1))) with q.
  fold r. rewrite Hs. cbn [Z.eqb Pos.eqb negb].
  destruct (json r) as [|i l] eqn:Ej; [congruence|]. cbn [is_empty].
  rewrite <- Ej in *.
  apply Z.ltb_lt in Hshort. rewrite Hshort. unfold M.ret. cbn [app].
  rewrite slice_to_all; [reflexivity|].
  apply Z.ltb_lt in Hshort. lia.
Qed.

(** ** The organization aggregator *)

Lemma get_issues_from_repo_idle {World : Type} (session : Session World)
    (owner repo state : string) (cap : Z) (st : St World) :
  cap <= 0 ->
  get_issues_from_repo session owner repo state cap st = Some ([], st).
Proof.
  intros Hc. unfold get_issues_from_repo, M.bind.
  rewrite fetch_pages_done by (apply Z.ltb_ge; cbn; lia).
  unfold M.ret. rewrite slice_to_nil. reflexivity.
Qed.

(** X5. When the repository list is obtained but is empty, or when the cap
    is [<= 0], [get_org_issues] returns the empty sequence after the
    repository-list request alone: no issues request is made and nothing
    is printed. *)
Theorem get_org_issues_nothing_to_fetch {World : Type}
    (session : Session World) (org state : string) (cap : Z) (st : St World) :
  let r := fst (get_repos session (repos_request org) (world st)) in
  let w := snd (get_repos session (repos_request org) (world st)) in
  status_code r = 200 ->
  json r = [] \/ cap <= 0 ->
  get_org_issues session org state cap st
  = Some ([], mkSt w (trace st ++ [EvRepos (repos_request org) r]) (stderr st)).
Proof.
  intros r w Hs Hcase.
  rewrite (get_org_issues_listed session org state cap st Hs).
  fold r w. destruct (json r) as [|repo repos] eqn:Ej.
  - cbn. rewrite slice_to_nil. reflexivity.
  - destruct Hcase as [Habs|Hcap]; [discriminate|].
    cbn [for_each_repo]. unfold M.bind.
    rewrite get_issues_from_repo_idle by exact Hcap.
    cbn [app]. replace (len (@nil Issue) >=? cap) with true.
    + cbn. rewrite slice_to_nil. reflexivity.
    + symmetry. apply Z.geb_le. cbn. lia.
Qed.

Lemma sort_by_updated_at_desc_sorted_id (l : list Issue) :
  StronglySorted newest_first_rel l -> sort_by_updated_at_desc l = l.
Proof.
  induction 1 as [|x l Hl IH Hx]; [reflexivity|].
  change (sort_by_updated_at_desc (x :: l))
    with (insert_by_updated_at x (sort_by_updated_at_desc l)).
  rewrite IH. destruct l as [|y l']; [reflexivity|].
  cbn [insert_by_updated_at]. inversion Hx as [|? ? Hxy _]; subst.
  unfold newest_first_rel in Hxy. rewrite Hxy. reflexivity.
Qed.

Lemma slice_to_idem {A : Type} (l : list A) (n : Z) :
  0 <= n -> slice_to (slice_to l n) n = slice_to l n.
Proof.
  intros Hn. apply slice_to_all, slice_to_len, Hn.
Qed.

(** X6. For an organization that lists exactly one repository,
    [get_org_issues] agrees with [get_issues_from_repo] on that repository
    whenever the latter's result is sorted by update time, descending: the
    sort and the second cut change nothing. *)
Theorem get_org_issues_single_repo {World : Type} (session : Session World)
    (org state : string) (cap : Z) (st : St World) (R : Repo)
    (res : list Issue) (st2 : St World) :
  let r := fst (get_repos session (repos_request org) (world st)) in
  let w := snd (get_repos session (repos_request org) (world st)) in
  let st1 := mkSt w (trace st ++ [EvRepos (repos_request org) r]) (stderr st) in
  status_code r = 200 ->
  json r = [R] ->
  get_issues_from_repo session org (name R) state cap st1 = Some (res, st2) ->
  newest_first res ->
  get_org_issues session org state cap st = Some (res, st2).
Proof.
  intros r w st1 Hs Hj Hget Hsorted.
  rewrite (get_org_issues_listed session org state cap st Hs).
  fold r w st1. rewrite Hj. cbn [for_each_repo]. unfold M.bind.
  rewrite Hget. cbn [app].
  assert (Hall : (if len res >=? cap then M.ret res
                  else M.ret (World := World) res) st2 = Some (res, st2))
    by (destruct (len res >=? cap); reflexivity).
  rewrite Hall.
  rewrite sort_by_updated_at_desc_sorted_id
    by (apply newest_first_strongly; exact Hsorted).
  destruct (get_issues_from_repo_run session org (name R) state cap st1)
    as (rs & st' & _ & Hrun & _).
  rewrite Hrun in Hget. injection Hget as <- <-.
  destruct (Z_le_gt_dec 0 cap) as [Hc|Hc].
  - rewrite slice_to_idem by exact Hc. reflexivity.
  - rewrite get_issues_from_repo_idle in Hrun by lia.
    injection Hrun as <- _. rewrite slice_to_nil. reflexivity.
Qed.

(** X7. Nothing fetched is lost below the cap: when the fetches of a run
    of [get_org_issues] return no more issues in total than the cap, the
    result is a rearrangement of all of them, and when they return fewer,
    every listed repository has been fetched. *)
Theorem get_org_issues_keeps_all_below_cap {World : Type}
    (session : Session World) (org state : string) (cap : Z) (st : St World) :
  let r := fst (get_repos session (repos_request org) (world st)) in
  let w := snd (get_repos session (repos_request org) (world st)) in
  let st1 := mkSt w (trace st ++ [EvRepos (repos_request org) r]) (stderr st) in
  status_code r = 200 ->
  exists fetched skipped results res st',
    json r = fetched ++ skipped
    /\ fetch_chain session org state cap fetched st1 results st'
    /\ get_org_issues session org state cap st = Some (res, st')
    /\ (len (List.concat results) <= cap ->
        Permutation (List.concat results) res)
    /\ (len (List.concat results) < cap -> skipped = []).
Proof.
  intros r w st1 Hs.
  rewrite (get_org_issues_listed session org state cap st Hs).
  fold r w st1.
  destruct (for_each_repo_run session org state cap (json r) [] st1)
    as (fetched & skipped & results & st' & Hsplit & Hchain & Hrun
        & _ & Hskip).
  rewrite Hrun. cbn [app] in *.
  exists fetched, skipped, results,
    (slice_to (sort_by_updated_at_desc (List.concat results)) cap), st'.
  repeat split; auto.
  - intros Hle. rewrite slice_to_all.
    + apply sort_by_updated_at_desc_perm.
    + rewrite sort_by_updated_at_desc_length. exact Hle.
  - intros Hlt. destruct skipped as [|x l]; [reflexivity|].
    assert (cap <= len (List.concat results)) by (apply Hskip; discriminate).
    lia.
Qed.

Lemma page_events_requests (owner repo state : string) (cap : Z) :
  forall (rs : list (Response (list Issue))) (page : Z) (ev : Event),
    In ev (page_events owner repo state cap page rs) ->
    exists p rr, page <= p
                 /\ ev = EvIssues (page_request owner repo state cap p) rr.
Proof.
  induction rs as [|r rs IH]; intros page ev Hin; cbn in Hin; [tauto|].
  destruct Hin as [<-|Hin].
  - exists page, r. split; [lia|reflexivity].
  - destruct (IH (page + 1) ev Hin) as (p & rr & Hp & ->).
    exists p, rr. split; [lia|reflexivity].
Qed.

Lemma fetch_chain_requests {World : Type} (session : Session World)
    (org state : string) (cap : Z) (repos : list Repo) (st st' : St World)
    (results : list (list Issue)) :
  fetch_chain session org state cap repos st results st' ->
  exists evs,
    trace st' = trace st ++ evs
    /\ forall ev, In ev evs ->
         exists repo p rr,
           In repo repos /\ 1 <= p
           /\ ev = EvIssues (page_request org (name repo) state cap p) rr.
Proof.
  induction 1 as [st|repo repos st st1 st2 issues results Hget _ IH].
  - exists []. rewrite app_nil_r. split; [reflexivity|]. intros ev [].
  - destruct IH as (evs & Ht & Hevs).
    destruct (get_issues_from_repo_run session org (name repo) state cap st)
      as (rs & st0 & _ & Hrun & Ht0 & _).
    rewrite Hrun in Hget. injection Hget as _ ->.
    exists (page_events org (name repo) state cap 1 rs ++ evs).
    split; [rewrite Ht, Ht0, app_assoc; reflexivity|].
    intros ev Hin. apply in_app_or in Hin. destruct Hin as [Hin|Hin].
    + destruct (page_events_requests _ _ _ _ _ _ _ Hin) as (p & rr & Hp & ->).
      exists repo, p, rr. cbn. auto.
    + destruct (Hevs ev Hin) as (repo' & p & rr & Hr & Hp & ->).
      exists repo', p, rr. cbn. auto.
Qed.

(** X8. [get_org_issues] talks to the remote side only about the
    organization: its first exchange is the repository-list request, and
    every later one is an issues page request (page number at least 1, page
    size [min(cap, 100)], the caller's state filter) for a repository of
    that organization named in the list it received. *)
Theorem get_org_issues_requests_only_listed {World : Type}
    (session : Session World) (org state : string) (cap : Z) (st : St World) :
  let r := fst (get_repos session (repos_request org) (world st)) in
  exists res st' evs,
    get_org_issues session org state cap st = Some (res, st')
    /\ trace st' = trace st ++ EvRepos (repos_request org) r :: evs
    /\ (status_code r <> 200 -> evs = [])
    /\ forall ev, In ev evs ->
         exists repo p rr,
           In repo (json r) /\ 1 <= p
           /\ ev = EvIssues (page_request org (name repo) state cap p) rr.
Proof.
  intros r.
  destruct (Z.eq_dec (status_code r) 200) as [Hs|Hs].
  - rewrite (get_org_issues_listed session org state cap st Hs). fold r.
    set (st1 := mkSt _ _ _).
    destruct (for_each_repo_run session org state cap (json r) [] st1)
      as (fetched & skipped & results & st' & Hsplit & Hchain & Hrun & _).
    rewrite Hrun.
    destruct (fetch_chain_requests session org state cap fetched st1 st'
                results Hchain) as (evs & Ht & Hevs).
    eexists _, st', evs. split; [reflexivity|].
    split; [|split; [tauto|]].
    + rewrite Ht. subst st1. cbn [trace]. rewrite <- app_assoc. reflexivity.
    + intros ev Hin. destruct (Hevs ev Hin) as (repo & p & rr & Hr & Hp & ->).
      exists repo, p, rr. rewrite Hsplit. split; [|auto].
      apply in_or_app. left. exact Hr.
  - destruct (get_org_issues_failed session org state cap st Hs)
      as (st' & Hrun & _ & Ht).
    exists [], st', []. fold r in Ht. repeat split; auto.
    intros ev [].
Qed.

(** ** Concrete runs of the further properties *)

Lemma get_issues_from_repo_single_request_witness :
  1 <= 5 <= 100
  /\ exists st',
       get_issues_from_repo scripted "o" "r" "open" 5 (start one_page_repo)
       = Some ([sample_b1; sample_a1; sample_b2; sample_a2], st')
       /\ trace st'
          = [EvIssues (page_request "o" "r" "open" 5 1)
               (ok [sample_b1; pull_at 9 "2024-03-15T00:00:00Z"; sample_a1;
                    sample_b2; sample_a2])]
       /\ world st' = mkScript [] [].
Proof.
  split; [lia|].
  apply (get_issues_from_repo_single_request scripted "o" "r" "open" 5
           (start one_page_repo)).
  lia.
Defined.

Lemma get_issues_from_repo_short_first_page_witness :
  get_issues_from_repo scripted "o" "r" "open" 5 (start one_page_repo)
  = Some ([sample_b1; sample_a1; sample_b2; sample_a2],
          mkSt (mkScript [] [])
            [EvIssues (page_request "o" "r" "open" 5 1)
               (ok [sample_b1; pull_at 9 "2024-03-15T00:00:00Z"; sample_a1;
                    sample_b2; sample_a2])]
            []).
Proof.
  apply (get_issues_from_repo_short_first_page scripted "o" "r" "open" 5
           (start one_page_repo)).
  - reflexivity.
  - cbn. discriminate.
  - reflexivity.
Defined.

Lemma get_org_issues_nothing_to_fetch_witness :
  get_org_issues scripted "org" "open" 0 (start two_repo_org)
  = Some ([], mkSt (mkScript (issue_script two_repo_org) [])
                [EvRepos (repos_request "org") (ok [mkRepo "A"; mkRepo "B"])]
                []).
Proof.
  apply (get_org_issues_nothing_to_fetch scripted "org" "open" 0
           (start two_repo_org)).
  - reflexivity.
  - right. lia.
Defined.

Lemma get_org_issues_single_repo_witness :
  get_org_issues scripted "org" "open" 5 (start one_repo_org)
  = Some ([sample_a1; sample_a2],
          mkSt (mkScript [] [])
            [EvRepos (repos_request "org") (ok [mkRepo "A"]);
             EvIssues (page_request "org" "A" "open" 5 1)
               (ok [sample_a1; sample_a2])]
            []).
Proof.
  apply (get_org_issues_single_repo scripted "org" "open" 5
           (start one_repo_org) (mkRepo "A")).
  - reflexivity.
  - reflexivity.
  - reflexivity.
  - repeat (constructor; try reflexivity).
Defined.

Lemma get_org_issues_keeps_all_below_cap_witness :
  exists fetched skipped results res st',
    [mkRepo "A"; mkRepo "B"] = fetched ++ skipped
    /\ fetch_chain scripted "org" "open" 10 fetched
         (mkSt (mkScript (issue_script two_repo_org) [])
            [EvRepos (repos_request "org") (ok [mkRepo "A"; mkRepo "B"])] [])
         results st'
    /\ get_org_issues scripted "org" "open" 10 (start two_repo_org)
       = Some (res, st')
    /\ (len (List.concat results) <= 10 ->
        Permutation (List.concat results) res)
    /\ (len (List.concat results) < 10 -> skipped = []).
Proof.
  apply (get_org_issues_keeps_all_below_cap scripted "org" "open" 10
           (start two_repo_org)).
  reflexivity.
Defined.

(** * Properties of the credential loading *)

(** ** The environment only grows *)

Lemma environ_get_app (key : string) (env added : Environ) (v : string) :
  environ_get key env = Some v -> environ_get key (env ++ added) = Some v.
Proof.
  induction env as [|[k w] env IH]; cbn; [discriminate|].
  destruct (String.eqb k key); auto.
Qed.

Lemma environ_get_app_fresh (key : string) (env added : Environ) :
  environ_get key env = None ->
  environ_get key (env ++ added) = environ_get key added.
Proof.
  induction env as [|[k w] env IH]; cbn; [reflexivity|].
  destruct (String.eqb k key); [discriminate|auto].
Qed.

Lemma environ_setdefault_grows (key value : string) (env env' : Environ) :
  environ_setdefault key value env = Done env' ->
  exists added, env' = env ++ added.
Proof.
  unfold environ_setdefault. destruct (environ_get key env).
  - intros [= <-]. exists []. rewrite app_nil_r. reflexivity.
  - destruct (contains_char zero key || contains_char zero value);
      [discriminate|].
    intros [= <-]. eauto.
Qed.

Lemma load_line_grows (line : string) (env env' : Environ) :
  load_line line env = Done env' -> exists added, env' = env ++ added.
Proof.
  unfold load_line.
  destruct (nonempty (py_strip line) && negb (startswith "#" (py_strip line))
            && contains_char "=" (py_strip line)).
  - destruct (split_once "=" (py_strip line)) as [|key [|value [|x l]]];
      try discriminate.
    destruct (nonempty (py_strip key)
              && nonempty (strip_char "'" (strip_char dquote (py_strip value)))).
    + apply environ_setdefault_grows.
    + intros [= <-]. exists []. rewrite app_nil_r. reflexivity.
  - intros [= <-]. exists []. rewrite app_nil_r. reflexivity.
Qed.

Lemma load_lines_grows (lines : list string) :
  forall env, exists added, fst (load_lines lines env) = env ++ added.
Proof.
  induction lines as [|line lines IH]; intros env; cbn.
  - exists []. rewrite app_nil_r. reflexivity.
  - destruct (load_line line env) as [env1|message] eqn:E.
    + destruct (load_line_grows line env env1 E) as (a1 & ->).
      destruct (IH (env ++ a1)) as (a2 & ->).
      exists (a1 ++ a2). rewrite app_assoc. reflexivity.
    + exists []. rewrite app_nil_r. reflexivity.
Qed.

Lemma load_from_grows (f : EnvFile) (env : Environ) (err : list string) :
  exists added, fst (load_from f env err) = env ++ added.
Proof.
  unfold load_from.
  destruct (load_lines_grows (file_lines f) env) as (added & H).
  destruct (load_lines (file_lines f) env) as [env' raised]. cbn in H.
  exists added. subst env'.
  destruct raised; [reflexivity|]. destruct (read_error f); reflexivity.
Qed.

Lemma load_env_file_grows (host : Host) (env : Environ) (err : list string) :
  exists added, fst (load_env_file host env err) = env ++ added.
Proof.
  unfold load_env_file. destruct (script_env host) as [f|].
  - apply load_from_grows.
  - destruct (cwd_env host) as [f|]; [apply load_from_grows|].
    exists []. rewrite app_nil_r. reflexivity.
Qed.

(** X9. [load_env_file] never changes a variable that is already set: the
    environment it leaves is the one it found, followed by the variables
    it added, and every variable that had a value still has that value,
    whatever the [.env] files hold. *)
Theorem load_env_file_keeps_environment (host : Host) (env : Environ)
    (err : list string) :
  exists added,
    fst (load_env_file host env err) = env ++ added
    /\ forall key v,
         environ_get key env = Some v ->
         environ_get key (fst (load_env_file host env err)) = Some v.
Proof.
  destruct (load_env_file_grows host env err) as (added & H).
  exists added. split; [exact H|].
  intros key v Hget. rewrite H. apply environ_get_app, Hget.
Qed.

(** ** The token *)

Lemma get_github_token_result (host : Host) (env : Environ)
    (err : list string) :
  let env' := fst (load_env_file host env
                     (err ++ [("スクリプトディレクトリ: " ++ script_dir host)%string;
                              (".envファイルパス: " ++ env_path host)%string;
                              (".envファイル存在確認: "
                               ++ str_of_bool (exists_file (script_env host)))%string])) in
  let token := or_else (environ_get "GITHUB_TOKEN" env')
                       (environ_get "GITHUB_PAT" env') in
  fst (fst (get_github_token host env err))
  = (if truthy token then token else None)
  /\ snd (fst (get_github_token host env err)) = env'.
Proof.
  intros env' token. subst env' token. unfold get_github_token.
  destruct (load_env_file host env _) as [env' err']. cbn [fst snd].
  destruct (truthy _); split; reflexivity.
Qed.

Lemma load_env_file_environ_irrelevant_err (host : Host) (env : Environ)
    (err1 err2 : list string) :
  fst (load_env_file host env err1) = fst (load_env_file host env err2).
Proof.
  unfold load_env_file, load_from.
  destruct (script_env host) as [f|]; [|destruct (cwd_env host) as [f|]];
    try reflexivity;
    destruct (load_lines (file_lines f) env) as [env' [m|]];
    try reflexivity; destruct (read_error f); reflexivity.
Qed.

(** X10. A non-empty [GITHUB_TOKEN] of the process environment is the
    token [get_github_token] returns, whatever the [.env] files hold and
    whatever [GITHUB_PAT] is. *)
Theorem get_github_token_prefers_environment (host : Host) (env : Environ)
    (err : list string) (t : string) :
  environ_get "GITHUB_TOKEN" env = Some t ->
  nonempty t = true ->
  fst (fst (get_github_token host env err)) = Some t.
Proof.
  intros Hget Ht.
  destruct (get_github_token_result host env err) as [Hres _].
  rewrite Hres.
  destruct (load_env_file_grows host env
              (err ++ [("スクリプトディレクトリ: " ++ script_dir host)%string;
                       (".envファイルパス: " ++ env_path host)%string;
                       (".envファイル存在確認: "
                        ++ str_of_bool (exists_file (script_env host)))%string]))
    as (added & ->).
  rewrite (environ_get_app _ _ added _ Hget).
  cbn [or_else]. rewrite Ht. cbn [truthy]. rewrite Ht. reflexivity.
Qed.

(** X11. [get_github_token] never returns an empty token: a returned token
    is the non-empty value of [GITHUB_TOKEN], or else of [GITHUB_PAT], in
    the environment left by [load_env_file]; and when it returns nothing,
    it explains on standard error how to set the token. *)
Theorem get_github_token_never_empty (host : Host) (env : Environ)
    (err : list string) :
  let token := fst (fst (get_github_token host env err)) in
  let env' := snd (fst (get_github_token host env err)) in
  let err' := snd (get_github_token host env err) in
  (forall t, token = Some t ->
     t <> EmptyString
     /\ (environ_get "GITHUB_TOKEN" env' = Some t
         \/ environ_get "GITHUB_PAT" env' = Some t))
  /\ (token = None ->
      In "  https://github.com/settings/tokens"%string err').
Proof.
  intros token env' err'. subst token env' err'.
  unfold get_github_token.
  destruct (load_env_file host env _) as [env' err']. cbn [fst snd].
  set (token := or_else _ _).
  destruct (truthy token) eqn:Etruthy; cbn [negb fst snd].
  - split; [|intros Hnone; rewrite Hnone in Etruthy; discriminate].
    intros t Ht. rewrite Ht in Etruthy. cbn in Etruthy.
    split; [intros ->; discriminate|].
    subst token. unfold or_else in Ht.
    destruct (environ_get "GITHUB_TOKEN" env') as [a|]; [|auto].
    destruct (nonempty a); auto.
  - split; [intros t Ht; discriminate|]. intros _.
    destruct (negb (exists_file (script_env host)));
      [apply in_or_app; left|];
      apply in_or_app; right; cbn; auto 10.
Qed.

(** ** Strings *)

Lemma append_nil_r (s : string) : (s ++ "")%string = s.
Proof. induction s as [|c s IH]; cbn; congruence. Qed.

Lemma append_assoc (a b c : string) :
  ((a ++ b) ++ c)%string = (a ++ (b ++ c))%string.
Proof. induction a as [|x a IH]; cbn; congruence. Qed.

Lemma string_rev_append_spec (s acc : string) :
  string_rev_append s acc = (string_rev s ++ acc)%string.
Proof.
  revert acc. induction s as [|c s IH]; intros acc; [reflexivity|].
  unfold string_rev. cbn. rewrite (IH (String c acc)), (IH (String c "")).
  rewrite append_assoc. reflexivity.
Qed.

Lemma string_rev_cons (c : ascii) (s : string) :
  string_rev (String c s) = (string_rev s ++ String c "")%string.
Proof. unfold string_rev at 1. cbn. apply string_rev_append_spec. Qed.

Lemma string_rev_app (a b : string) :
  string_rev (a ++ b) = (string_rev b ++ string_rev a)%string.
Proof.
  induction a as [|c a IH]; cbn [append].
  - change (string_rev "") with ""%string. rewrite append_nil_r. reflexivity.
  - rewrite !string_rev_cons, IH, append_assoc. reflexivity.
Qed.

Lemma string_rev_involutive (s : string) : string_rev (string_rev s) = s.
Proof.
  induction s as [|c s IH]; [reflexivity|].
  rewrite string_rev_cons, string_rev_app, IH. reflexivity.
Qed.

(** A non-empty string ends with some byte. *)
Lemma string_last (s : string) :
  nonempty s = true -> exists s0 c, s = (s0 ++ String c "")%string.
Proof.
  induction s as [|a s IH]; [discriminate|]. intros _.
  destruct s as [|b s'].
  - exists ""%string, a. reflexivity.
  - destruct (IH eq_refl) as (s0 & c & E).
    exists (String a s0), c. cbn. rewrite <- E. reflexivity.
Qed.

Lemma all_bytes_app (f : ascii -> bool) (a b : string) :
  all_bytes f (a ++ b) = all_bytes f a && all_bytes f b.
Proof.
  induction a as [|c a IH]; cbn; [reflexivity|].
  rewrite IH, andb_assoc. reflexivity.
Qed.

(** ** Stripping *)

Lemma drop_one_starts_none (pats : list string) (c : ascii) (s : string) :
  starts_none pats c = true -> drop_one pats (String c s) = None.
Proof.
  induction pats as [|p pats IH]; cbn; [reflexivity|].
  intros H. apply andb_true_iff in H. destruct H as [Hp Hps].
  destruct p as [|a p]; [discriminate|]. cbn.
  apply negb_true_iff in Hp. rewrite Hp. auto.
Qed.

Lemma lstrip_of_stop (pats : list string) (c : ascii) (s : string) :
  starts_none pats c = true ->
  lstrip_of pats (String c s) = String c s.
Proof.
  intros H. unfold lstrip_of. cbn [String.length lstrip_upto].
  rewrite drop_one_starts_none by exact H. reflexivity.
Qed.

Lemma lstrip_of_nil (pats : list string) : lstrip_of pats "" = ""%string.
Proof. reflexivity. Qed.

(** Stripping at the end of a string that ends with a byte no pattern ends
    with. *)
Lemma rstrip_of_stop (pats : list string) (c : ascii) (s : string) :
  starts_none (map string_rev pats) c = true ->
  rstrip_of pats (s ++ String c "") = (s ++ String c "")%string.
Proof.
  intros H. unfold rstrip_of.
  rewrite string_rev_app. cbn [string_rev string_rev_append append].
  rewrite lstrip_of_stop by exact H.
  rewrite <- (string_rev_involutive (s ++ String c "")).
  rewrite string_rev_app. reflexivity.
Qed.

Lemma graphic_not_whitespace (c : ascii) :
  is_graphic c = true ->
  starts_none whitespace c = true
  /\ starts_none (map string_rev whitespace) c = true.
Proof.
  destruct c as [b0 b1 b2 b3 b4 b5 b6 b7].
  destruct b0, b1, b2, b3, b4, b5, b6, b7; intros H;
    try discriminate H; split; vm_compute; reflexivity.
Qed.

Lemma drop_newline_at_end (s : string) :
  drop_one (map string_rev whitespace) (String (ascii_of_nat 10) s) = Some s.
Proof. reflexivity. Qed.

(** [strip()] leaves a text that begins and ends with printable characters
    as it is, and removes a line end after it. *)
Lemma py_strip_graphic_ends (a c : ascii) (s1 s0 ending : string) :
  String a s1 = (s0 ++ String c "")%string ->
  is_graphic a = true ->
  is_graphic c = true ->
  ending = ""%string \/ ending = newline ->
  py_strip (String a s1 ++ ending) = String a s1.
Proof.
  intros Hs Ha Hc Hend.
  destruct (graphic_not_whitespace a Ha) as [Ha1 _].
  destruct (graphic_not_whitespace c Hc) as [_ Hc2].
  unfold py_strip, strip_of. cbn [append].
  rewrite lstrip_of_stop by exact Ha1.
  change (String a (s1 ++ ending)) with (String a s1 ++ ending)%string.
  rewrite Hs. destruct Hend as [-> | ->].
  - rewrite append_nil_r. apply rstrip_of_stop, Hc2.
  - unfold rstrip_of. rewrite !string_rev_app.
    change (string_rev newline) with (String (ascii_of_nat 10) "").
    change (string_rev (String c "")) with (String c "").
    cbn [append]. unfold lstrip_of. cbn [String.length lstrip_upto].
    rewrite drop_newline_at_end.
    rewrite drop_one_starts_none by exact Hc2.
    rewrite string_rev_cons, string_rev_involutive. reflexivity.
Qed.

(** [strip(q)] removes one quote [q] on each side of a text that neither
    begins nor ends with [q], and leaves such a text as it is. *)
Lemma strip_of_quote (q a c : ascii) (s1 s0 : string) :
  String a s1 = (s0 ++ String c "")%string ->
  Ascii.eqb q a = false ->
  Ascii.eqb q c = false ->
  strip_of [String q ""] (String q (String a s1 ++ String q "")) = String a s1
  /\ strip_of [String q ""] (String a s1) = String a s1.
Proof.
  intros Hs Ha Hc.
  assert (Hna : starts_none [String q ""] a = true)
    by (cbn; rewrite Ha; reflexivity).
  assert (Hnc : starts_none (map string_rev [String q ""]) c = true)
    by (cbn; rewrite Hc; reflexivity).
  assert (Hr : rstrip_of [String q ""] (String a s1) = String a s1)
    by (rewrite Hs; apply rstrip_of_stop, Hnc).
  split.
  - unfold strip_of at 1. unfold lstrip_of.
    cbn [String.length lstrip_upto drop_one drop_prefix].
    rewrite Ascii.eqb_refl.
    change (lstrip_upto (String.length (String a s1 ++ String q ""))
              [String q ""] (String a s1 ++ String q ""))
      with (lstrip_of [String q ""] (String a s1 ++ String q "")).
    cbn [append]. rewrite lstrip_of_stop by exact Hna.
    change (String a (s1 ++ String q "")) with (String a s1 ++ String q "")%string.
    unfold rstrip_of. rewrite string_rev_app.
    change (string_rev (String q "")) with (String q "").
    cbn [append map]. change (string_rev (String q "")) with (String q "").
    unfold lstrip_of.
    cbn [String.length lstrip_upto drop_one drop_prefix].
    rewrite Ascii.eqb_refl.
    change (lstrip_upto (String.length (string_rev (String a s1)))
              [String q ""] (string_rev (String a s1)))
      with (lstrip_of [String q ""] (string_rev (String a s1))).
    rewrite Hs at 1. rewrite string_rev_app.
    change (string_rev (String c "")) with (String c "").
    cbn [append]. rewrite lstrip_of_stop by exact Hnc.
    rewrite string_rev_cons, string_rev_involutive. symmetry. exact Hs.
  - unfold strip_of. rewrite lstrip_of_stop by exact Hna. exact Hr.
Qed.

Lemma partition_char_app (c : ascii) (key rest : string) :
  contains_char c key = false ->
  partition_char c (key ++ String c rest) = Some (key, rest).
Proof.
  induction key as [|a key IH]; cbn.
  - intros _. rewrite Ascii.eqb_refl. reflexivity.
  - intros H. apply orb_false_iff in H. destruct H as [Ha Hk].
    rewrite Ha, (IH Hk). reflexivity.
Qed.

Lemma contains_char_app (c : ascii) (a b : string) :
  contains_char c (a ++ b) = contains_char c a || contains_char c b.
Proof.
  induction a as [|x a IH]; cbn; [reflexivity|].
  rewrite IH, orb_assoc. reflexivity.
Qed.

Lemma all_bytes_excludes (f : ascii -> bool) (c : ascii) (s : string) :
  all_bytes f s = true -> f c = false -> contains_char c s = false.
Proof.
  induction s as [|a s IH]; cbn; [reflexivity|].
  intros H Hc. apply andb_true_iff in H. destruct H as [Ha Hs].
  rewrite (IH Hs Hc), orb_false_r.
  destruct (Ascii.eqb_spec a c) as [->|]; [congruence|reflexivity].
Qed.

(** The first and the last byte of a non-empty string all of whose bytes
    satisfy [f]. *)
Lemma all_bytes_ends (f : ascii -> bool) (s : string) :
  nonempty s = true -> all_bytes f s = true ->
  exists a s1 s0 c,
    s = String a s1 /\ s = (s0 ++ String c "")%string
    /\ f a = true /\ f c = true.
Proof.
  intros Hne Hall.
  destruct (string_last s Hne) as (s0 & c & Hlast).
  destruct s as [|a s1]; [discriminate|].
  exists a, s1, s0, c. repeat split; auto.
  - cbn in Hall. apply andb_true_iff in Hall. tauto.
  - rewrite Hlast, all_bytes_app in Hall. cbn in Hall.
    apply andb_true_iff in Hall. destruct Hall as [_ Hc].
    apply andb_true_iff in Hc. tauto.
Qed.

(** ** Lines of a [.env] file *)

Lemma startswith_cons (h a : ascii) (s : string) :
  startswith (String h "") (String a s) = Ascii.eqb h a.
Proof. unfold startswith. cbn. destruct (Ascii.eqb h a); reflexivity. Qed.

(** An assignment line whose right-hand side [V] begins and ends with
    printable characters. *)
Lemma load_line_assignment (key V value ending : string) (env : Environ)
    (a c : ascii) (V1 V0 : string) :
  plain_name key = true ->
  V = String a V1 -> V = (V0 ++ String c "")%string ->
  is_graphic a = true -> is_graphic c = true ->
  strip_char "'" (strip_char dquote V) = value ->
  nonempty value = true ->
  ending = ""%string \/ ending = newline ->
  load_line (key ++ "=" ++ V ++ ending) env
  = environ_setdefault key value env.
Proof.
  intros Hkey HV1 HV0 Ha Hc Hvalue Hne Hend.
  unfold plain_name in Hkey.
  apply andb_true_iff in Hkey. destruct Hkey as [Hkey Hhash].
  apply andb_true_iff in Hkey. destruct Hkey as [Hkne Hkall].
  destruct (all_bytes_ends _ key Hkne Hkall)
    as (ka & k1 & k0 & kc & Hk1 & Hk0 & Hka & Hkc).
  apply andb_true_iff in Hka. destruct Hka as [Hka _].
  apply andb_true_iff in Hkc. destruct Hkc as [Hkc _].
  assert (Hkeq : contains_char "=" key = false).
  { eapply all_bytes_excludes; [exact Hkall|]. reflexivity. }
  assert (Hline : (key ++ "=" ++ V ++ ending
                   = String ka (k1 ++ "=" ++ V) ++ ending)%string).
  { rewrite Hk1. cbn [append]. rewrite !append_assoc. reflexivity. }
  assert (Hlast : String ka (k1 ++ "=" ++ V)
                  = ((key ++ "=" ++ V0) ++ String c "")%string).
  { rewrite Hk1, HV0. cbn [append]. rewrite !append_assoc. reflexivity. }
  unfold load_line.
  rewrite Hline, (py_strip_graphic_ends ka c _ _ ending Hlast Hka Hc Hend).
  cbn [nonempty andb]. rewrite startswith_cons.
  rewrite Hk1, startswith_cons in Hhash. rewrite Hhash. cbn [andb].
  change (String ka (k1 ++ "=" ++ V)) with (String ka k1 ++ "=" ++ V)%string.
  rewrite <- Hk1.
  change ("=" ++ V)%string with (String "=" V).
  rewrite contains_char_app. cbn [contains_char]. rewrite Ascii.eqb_refl.
  rewrite orb_true_r. cbn [orb].
  unfold split_once. rewrite partition_char_app by exact Hkeq.
  assert (Hsk : py_strip key = key).
  { rewrite <- (append_nil_r key) at 1. rewrite Hk1.
    apply (py_strip_graphic_ends ka kc k1 k0 ""); auto.
    rewrite <- Hk1. exact Hk0. }
  assert (HsV : py_strip V = V).
  { rewrite <- (append_nil_r V) at 1. rewrite HV1.
    apply (py_strip_graphic_ends a c V1 V0 ""); auto.
    rewrite <- HV1. exact HV0. }
  rewrite Hsk, HsV, Hvalue, Hkne, Hne. reflexivity.
Qed.

Lemma plain_value_ends (value : string) :
  plain_value value = true ->
  exists a s1 s0 c,
    value = String a s1 /\ value = (s0 ++ String c "")%string
    /\ is_graphic a = true /\ is_graphic c = true
    /\ Ascii.eqb dquote_char a = false /\ Ascii.eqb dquote_char c = false
    /\ Ascii.eqb squote_char a = false /\ Ascii.eqb squote_char c = false.
Proof.
  unfold plain_value. intros H.
  apply andb_true_iff in H. destruct H as [Hne Hall].
  destruct (all_bytes_ends _ value Hne Hall)
    as (a & s1 & s0 & c & H1 & H0 & Ha & Hc).
  exists a, s1, s0, c.
  apply andb_true_iff in Ha. destruct Ha as [Ha Ha3].
  apply andb_true_iff in Ha. destruct Ha as [Ha1 Ha2].
  apply andb_true_iff in Hc. destruct Hc as [Hc Hc3].
  apply andb_true_iff in Hc. destruct Hc as [Hc1 Hc2].
  apply negb_true_iff in Ha2, Ha3, Hc2, Hc3.
  rewrite Ascii.eqb_sym in Ha2, Ha3, Hc2, Hc3.
  repeat split; auto.
Qed.

Lemma load_line_plain (key value ending : string) (env : Environ) :
  plain_name key = true ->
  plain_value value = true ->
  ending = ""%string \/ ending = newline ->
  load_line (key ++ "=" ++ value ++ ending) env
  = environ_setdefault key value env.
Proof.
  intros Hkey Hvalue Hend.
  destruct (plain_value_ends value Hvalue)
    as (a & s1 & s0 & c & H1 & H0 & Ha & Hc & Hda & Hdc & Hsa & Hsc).
  assert (H0' : String a s1 = (s0 ++ String c "")%string)
    by (rewrite <- H1; exact H0).
  destruct (strip_of_quote dquote_char a c s1 s0 H0' Hda Hdc) as [_ Hd1].
  destruct (strip_of_quote squote_char a c s1 s0 H0' Hsa Hsc) as [_ Hs1].
  rewrite <- H1 in Hd1, Hs1.
  eapply (load_line_assignment key value value ending env a c s1 s0); auto.
  - unfold strip_char.
    change [dquote] with [String dquote_char ""].
    change ["'"%string] with [String squote_char ""].
    rewrite Hd1, Hs1. reflexivity.
  - rewrite H1. reflexivity.
Qed.

(** X12. A line [NAME=value], [NAME="value"] or [NAME='value'] of a [.env]
    file, with or without its line end, where the name and the value are
    made of printable ASCII characters (no space, no [=] in the name, no
    quote in the value, no leading [#]), acts as
    [os.environ.setdefault(NAME, value)]: the quotes are removed. *)
Theorem load_line_assigns (key value ending : string) (env : Environ) :
  plain_name key = true ->
  plain_value value = true ->
  ending = ""%string \/ ending = newline ->
  load_line (key ++ "=" ++ value ++ ending) env
  = environ_setdefault key value env
  /\ load_line (key ++ "=" ++ (dquote ++ value ++ dquote) ++ ending) env
     = environ_setdefault key value env
  /\ load_line (key ++ "=" ++ ("'" ++ value ++ "'") ++ ending) env
     = environ_setdefault key value env.
Proof.
  intros Hkey Hvalue Hend.
  destruct (plain_value_ends value Hvalue)
    as (a & s1 & s0 & c & H1 & H0 & Ha & Hc & Hda & Hdc & Hsa & Hsc).
  assert (Hne : nonempty value = true) by (rewrite H1; reflexivity).
  assert (H0' : String a s1 = (s0 ++ String c "")%string)
    by (rewrite <- H1; exact H0).
  destruct (strip_of_quote dquote_char a c s1 s0 H0' Hda Hdc) as [Hd2 Hd1].
  destruct (strip_of_quote squote_char a c s1 s0 H0' Hsa Hsc) as [Hs2 Hs1].
  rewrite <- H1 in Hd1, Hd2, Hs1, Hs2.
  split; [|split].
  - eapply (load_line_assignment key value value ending env a c s1 s0);
      auto.
    unfold strip_char.
    change [dquote] with [String dquote_char ""].
    change ["'"%string] with [String squote_char ""].
    rewrite Hd1, Hs1. reflexivity.
  - eapply (load_line_assignment key _ value ending env dquote_char
              dquote_char (value ++ dquote) (dquote ++ value));
      auto.
    unfold strip_char.
    change [dquote] with [String dquote_char ""].
    change ["'"%string] with [String squote_char ""].
    change (dquote ++ value ++ dquote)%string
      with (String dquote_char (value ++ String dquote_char "")).
    rewrite Hd2, Hs1. reflexivity.
  - eapply (load_line_assignment key _ value ending env squote_char
              squote_char (value ++ "'") ("'" ++ value));
      auto.
    unfold strip_char.
    change [dquote] with [String dquote_char ""].
    change ["'"%string] with [String squote_char ""].
    change ("'" ++ value ++ "'")%string
      with (String squote_char (value ++ String squote_char "")).
    assert (Hq : String squote_char (value ++ String squote_char "")
                 = (("'" ++ value) ++ String squote_char "")%string)
      by reflexivity.
    destruct (strip_of_quote dquote_char squote_char squote_char
                (value ++ String squote_char "") ("'" ++ value) Hq
                eq_refl eq_refl) as [_ Hkeep].
    rewrite Hkeep, Hs2. reflexivity.
Qed.

(** X13. A [GITHUB_TOKEN=...] line at the head of the [.env] file beside
    the script supplies the token when the process environment has no
    [GITHUB_TOKEN], also when the environment sets [GITHUB_PAT]: the file's
    [GITHUB_TOKEN] is looked up before the environment's [GITHUB_PAT]. *)
Theorem get_github_token_file_before_pat (host : Host) (f : EnvFile)
    (rest : list string) (t : string) (env : Environ) (err : list string) :
  script_env host = Some f ->
  file_lines f = ("GITHUB_TOKEN=" ++ t ++ newline)%string :: rest ->
  plain_value t = true ->
  environ_get "GITHUB_TOKEN" env = None ->
  fst (fst (get_github_token host env err)) = Some t.
Proof.
  intros Hf Hlines Ht Henv.
  destruct (get_github_token_result host env err) as [Hres _].
  rewrite Hres. clear Hres.
  set (err0 := (err ++ _)%list).
  assert (Hload : environ_get "GITHUB_TOKEN"
                    (fst (load_env_file host env err0)) = Some t).
  { unfold load_env_file. rewrite Hf. unfold load_from.
    rewrite Hlines. cbn [load_lines].
    change ("GITHUB_TOKEN=" ++ t ++ newline)%string
      with ("GITHUB_TOKEN" ++ "=" ++ t ++ newline)%string.
    rewrite (load_line_plain "GITHUB_TOKEN" t newline env eq_refl Ht
               (or_intror eq_refl)). unfold environ_setdefault. rewrite Henv.
    assert (Hnul : contains_char zero t = false).
    { unfold plain_value in Ht. apply andb_true_iff in Ht.
      eapply all_bytes_excludes; [apply Ht|]. reflexivity. }
    rewrite Hnul. change (contains_char zero "GITHUB_TOKEN") with false.
    cbn [orb].
    destruct (load_lines_grows rest (env ++ [("GITHUB_TOKEN"%string, t)]))
      as (added & Hgrow).
    destruct (load_lines rest (env ++ [("GITHUB_TOKEN"%string, t)]))
      as [env' raised].
    cbn [fst] in Hgrow. subst env'.
    assert (Hget : environ_get "GITHUB_TOKEN"
                     ((env ++ [("GITHUB_TOKEN"%string, t)]) ++ added)
                   = Some t).
    { apply environ_get_app. rewrite environ_get_app_fresh by exact Henv.
      reflexivity. }
    destruct raised as [m|]; [exact Hget|].
    destruct (read_error f); exact Hget. }
  rewrite Hload. cbn [or_else].
  assert (Hne : nonempty t = true)
    by (unfold plain_value in Ht; apply andb_true_iff in Ht; apply Ht).
  rewrite Hne. cbn [truthy]. rewrite Hne. reflexivity.
Qed.

(** ** What can go wrong while loading *)

Lemma drop_prefix_contains (c : ascii) (p : string) :
  forall s s', drop_prefix p s = Some s' ->
               contains_char c s' = true -> contains_char c s = true.
Proof.
  induction p as [|a p IH]; intros s s' H Hc; cbn in H.
  - injection H as <-. exact Hc.
  - destruct s as [|b s]; [discriminate|].
    destruct (Ascii.eqb a b); [|discriminate].
    cbn. rewrite (IH s s' H Hc). apply orb_true_r.
Qed.

Lemma drop_one_contains (c : ascii) (pats : list string) (s s' : string) :
  drop_one pats s = Some s' ->
  contains_char c s' = true -> contains_char c s = true.
Proof.
  induction pats as [|p pats IH]; cbn; [discriminate|].
  destruct (drop_prefix p s) as [s1|] eqn:E; [|exact IH].
  intros [= <-]. eapply drop_prefix_contains; eassumption.
Qed.

Lemma lstrip_upto_contains (c : ascii) (pats : list string) (n : nat) :
  forall s, contains_char c (lstrip_upto n pats s) = true ->
            contains_char c s = true.
Proof.
  induction n as [|n IH]; intros s H; cbn in H; [exact H|].
  destruct (drop_one pats s) as [s'|] eqn:E; [|exact H].
  eapply drop_one_contains; [exact E|]. apply IH, H.
Qed.

Lemma string_rev_contains (c : ascii) (s : string) :
  contains_char c (string_rev s) = contains_char c s.
Proof.
  induction s as [|a s IH]; [reflexivity|].
  rewrite string_rev_cons, contains_char_app, IH. cbn.
  rewrite orb_false_r. apply orb_comm.
Qed.

Lemma strip_of_contains (c : ascii) (pats : list string) (s : string) :
  contains_char c (strip_of pats s) = true -> contains_char c s = true.
Proof.
  unfold strip_of, rstrip_of, lstrip_of. intros H.
  rewrite string_rev_contains in H.
  apply lstrip_upto_contains in H. rewrite string_rev_contains in H.
  apply lstrip_upto_contains in H. exact H.
Qed.

Lemma partition_char_contains (c x : ascii) (s : string) :
  forall before after,
    partition_char x s = Some (before, after) ->
    contains_char c before || contains_char c after = true ->
    contains_char c s = true.
Proof.
  induction s as [|a s IH]; intros before after H Hc; cbn in H;
    [discriminate|].
  destruct (Ascii.eqb a x).
  - injection H as <- <-. cbn in Hc. cbn. rewrite Hc. apply orb_true_r.
  - destruct (partition_char x s) as [[b1 a1]|]; [|discriminate].
    injection H as <- <-. cbn in Hc. cbn.
    rewrite <- orb_assoc in Hc.
    destruct (Ascii.eqb a c); [reflexivity|]. cbn in *.
    eapply IH; [reflexivity|exact Hc].
Qed.

Lemma partition_char_found (x : ascii) (s : string) :
  contains_char x s = true -> partition_char x s <> None.
Proof.
  induction s as [|a s IH]; cbn; [discriminate|].
  destruct (Ascii.eqb a x); [discriminate|]. cbn. intros H.
  destruct (partition_char x s) as [[b1 a1]|]; [discriminate|].
  exfalso. apply (IH H). reflexivity.
Qed.

(** Processing a line raises in one case only: the line holds a NUL
    character, which [putenv] refuses; the unpacking of
    [line.split('=', 1)] never fails. *)
Lemma load_line_raised (line : string) (env : Environ) (message : string) :
  load_line line env = Raised message ->
  message = "embedded null byte"%string
  /\ contains_char zero line = true.
Proof.
  unfold load_line.
  destruct (nonempty (py_strip line)) eqn:Hne; cbn [andb]; [|discriminate].
  destruct (startswith "#" (py_strip line)); cbn [negb andb]; [discriminate|].
  destruct (contains_char "=" (py_strip line)) eqn:Heq; [|discriminate].
  unfold split_once.
  destruct (partition_char "=" (py_strip line)) as [[key value]|] eqn:Hp.
  2:{ exfalso. eapply partition_char_found; eassumption. }
  destruct (nonempty (py_strip key)
            && nonempty (strip_char "'" (strip_char dquote (py_strip value))));
    [|discriminate].
  unfold environ_setdefault.
  destruct (environ_get (py_strip key) env); [discriminate|].
  destruct (contains_char zero (py_strip key)
            || contains_char zero
                 (strip_char "'" (strip_char dquote (py_strip value))))
    eqn:Hnul; [|discriminate].
  intros [= <-]. split; [reflexivity|].
  apply (strip_of_contains zero whitespace).
  eapply partition_char_contains; [exact Hp|].
  apply orb_true_iff in Hnul. apply orb_true_iff.
  destruct Hnul as [H|H].
  - left. apply (strip_of_contains zero whitespace), H.
  - right. apply (strip_of_contains zero whitespace).
    apply (strip_of_contains zero [dquote]).
    apply (strip_of_contains zero ["'"%string]), H.
Qed.

Lemma load_lines_quiet (lines : list string) :
  Forall (fun line => contains_char zero line = false) lines ->
  forall env, snd (load_lines lines env) = None.
Proof.
  induction 1 as [|line lines Hline _ IH]; intros env; cbn; [reflexivity|].
  destruct (load_line line env) as [env'|message] eqn:E; [apply IH|].
  apply load_line_raised in E. destruct E as [_ E]. congruence.
Qed.


(** X15. [load_env_file] prints at most one warning, and none at all when
    the file it would read (the one beside the script, else the one of the
    working directory) can be read and holds no NUL character, or when
    there is no such file. *)
Theorem load_env_file_warnings (host : Host) (env : Environ)
    (err : list string) :
  (exists message,
      snd (load_env_file host env err) = err
      \/ snd (load_env_file host env err)
         = err ++ [("警告: .envファイルの読み込みに失敗しました: "
                    ++ message)%string])
  /\ (forall f,
        env_file_read host = Some f ->
        read_error f = None ->
        Forall (fun line => contains_char zero line = false) (file_lines f) ->
        snd (load_env_file host env err) = err)
  /\ (script_env host = None -> cwd_env host = None ->
      load_env_file host env err = (env, err)).
Proof.
  assert (Hfrom : forall f,
             exists message,
               snd (load_from f env err) = err
               \/ snd (load_from f env err)
                  = err ++ [("警告: .envファイルの読み込みに失敗しました: "
                             ++ message)%string]).
  { intros f. unfold load_from.
    destruct (load_lines (file_lines f) env) as [env' [m|]].
    - exists m. right. reflexivity.
    - destruct (read_error f) as [m|].
      + exists m. right. reflexivity.
      + exists ""%string. left. reflexivity. }
  assert (Hquiet : forall f,
             read_error f = None ->
             Forall (fun line => contains_char zero line = false)
                    (file_lines f) ->
             snd (load_from f env err) = err).
  { intros f Hread Hnul. unfold load_from.
    pose proof (load_lines_quiet (file_lines f) Hnul env) as Hq.
    destruct (load_lines (file_lines f) env) as [env' raised].
    cbn in Hq. subst raised. rewrite Hread. reflexivity. }
  unfold load_env_file. split; [|split].
  - destruct (script_env host) as [f|]; [apply Hfrom|].
    destruct (cwd_env host) as [f|]; [apply Hfrom|].
    exists ""%string. left. reflexivity.
  - intros f Hf Hread Hnul. unfold env_file_read in Hf.
    destruct (script_env host) as [f0|].
    + injection Hf as ->. apply Hquiet; assumption.
    + rewrite Hf. apply Hquiet; assumption.
  - intros -> ->. reflexivity.
Qed.

(** * Properties of the output *)

(** ** Splitting *)

Lemma split_from_not_nil (sep : string) :
  forall s skip piece, split_from sep skip piece s <> [].
Proof.
  induction s as [|c s IH]; intros skip piece; cbn; [discriminate|].
  destruct skip; [|apply IH].
  destruct (startswith sep (String c s)); [discriminate|apply IH].
Qed.

Lemma split_from_no_occurrence (sep : string) :
  forall s piece,
    occurs sep s = false ->
    split_from sep 0 piece s = [(string_rev piece ++ s)%string].
Proof.
  induction s as [|c s IH]; intros piece H.
  - cbn. rewrite append_nil_r. reflexivity.
  - cbn [occurs] in H. apply orb_false_iff in H. destruct H as [Hs Ho].
    cbn [split_from]. rewrite Hs, (IH _ Ho), string_rev_cons, append_assoc.
    reflexivity.
Qed.

Lemma split_from_occurrence (a : ascii) (p : string) :
  forall s piece,
    occurs (String a p) s = true ->
    exists x y rest, split_from (String a p) 0 piece s = x :: y :: rest.
Proof.
  induction s as [|c s IH]; intros piece H.
  - cbn in H. discriminate.
  - cbn [occurs] in H. cbn [split_from].
    destruct (startswith (String a p) (String c s)) eqn:Hs.
    + destruct (split_from (String a p) (String.length (String a p) - 1)
                  "" s) as [|y rest] eqn:E.
      * exfalso. eapply split_from_not_nil; eassumption.
      * eauto.
    + cbn [orb] in H. apply IH, H.
Qed.

(** X16. [format_issue_markdown] raises in one case only: the issue has a
    [repository_url] that does not contain ["/repos/"]; the subscript [[1]]
    then fails with [IndexError].  An issue without [repository_url] is
    formatted. *)
Theorem format_issue_markdown_raises (issue : Issue) (message : string) :
  format_issue_markdown issue = Raised message
  <-> message = "list index out of range"%string
      /\ exists u, repository_url issue = Some u
                   /\ occurs "/repos/" u = false.
Proof.
  unfold format_issue_markdown, repo_full_name.
  destruct (repository_url issue) as [u|].
  - destruct (occurs "/repos/" u) eqn:Ho.
    + destruct (split_from_occurrence "/" "repos/" u "" Ho)
        as (x & y & rest & E).
      unfold split_on. rewrite E. cbn [nth_error].
      split; [discriminate|].
      intros [_ (u' & [= <-] & Habs)]. congruence.
    + unfold split_on. rewrite split_from_no_occurrence by exact Ho.
      cbn [nth_error]. split.
      * intros [= <-]. split; [reflexivity|]. eauto.
      * intros [-> _]. reflexivity.
  - split; [discriminate|]. intros [_ (u & Habs & _)]. discriminate.
Qed.

(** ** Repository names *)

Lemma startswith_needs_char (c : ascii) (p s : string) :
  contains_char c p = true -> contains_char c s = false ->
  startswith p s = false.
Proof.
  unfold startswith. revert s.
  induction p as [|a p IH]; intros s Hp Hs; cbn in Hp; [discriminate|].
  destruct s as [|b s]; [reflexivity|]. cbn in Hs.
  apply orb_false_iff in Hs. destruct Hs as [Hb Hs]. cbn.
  destruct (Ascii.eqb_spec a b) as [->|Hab]; [|reflexivity].
  rewrite Hb in Hp. cbn in Hp. apply (IH s Hp Hs).
Qed.

Lemma occurs_needs_char (c : ascii) (p s : string) :
  contains_char c p = true -> contains_char c s = false ->
  occurs p s = false.
Proof.
  intros Hp. induction s as [|b s IH]; intros Hs.
  - cbn. rewrite (startswith_needs_char c p "" Hp Hs). reflexivity.
  - cbn [occurs]. rewrite (startswith_needs_char c p _ Hp Hs). cbn [orb].
    cbn in Hs. apply orb_false_iff in Hs. apply IH, Hs.
Qed.

(** ["/repos/"] does not occur in [owner/repo]. *)
Lemma no_repos_in_full_name (owner repo : string) :
  contains_char "/" owner = false ->
  contains_char "/" repo = false ->
  occurs "/repos/" (owner ++ "/" ++ repo) = false.
Proof.
  intros Ho Hr. induction owner as [|a owner IH].
  - cbn [append occurs].
    rewrite (occurs_needs_char "/" "/repos/" repo eq_refl Hr).
    rewrite orb_false_r.
    pose proof (startswith_needs_char "/" "repos/" repo eq_refl Hr) as H.
    unfold startswith in *. cbn [drop_prefix]. rewrite Ascii.eqb_refl.
    exact H.
  - cbn in Ho. apply orb_false_iff in Ho. destruct Ho as [Ha Ho].
    change (String a owner ++ "/" ++ repo)%string
      with (String a (owner ++ "/" ++ repo)).
    cbn [occurs]. rewrite (IH Ho), orb_false_r.
    unfold startswith. cbn [drop_prefix].
    rewrite Ascii.eqb_sym, Ha. reflexivity.
Qed.

Lemma last_split_slash (repo : string) :
  contains_char "/" repo = false ->
  forall s piece,
    last (split_from "/" 0 piece (s ++ "/" ++ repo)) EmptyString = repo.
Proof.
  intros Hr.
  assert (Hno : occurs "/" repo = false)
    by (apply (occurs_needs_char "/"); [reflexivity|exact Hr]).
  assert (Hlast : forall (x : string) (l : list string),
             l <> [] -> last (x :: l) EmptyString = last l EmptyString).
  { intros x [|y l] H; [congruence|reflexivity]. }
  induction s as [|c s IH]; intros piece.
  - change ("" ++ "/" ++ repo)%string with (String "/" repo).
    cbn [split_from]. unfold startswith. cbn [drop_prefix].
    rewrite Ascii.eqb_refl. cbn [String.length Nat.sub].
    rewrite split_from_no_occurrence by exact Hno. reflexivity.
  - change (String c s ++ "/" ++ repo)%string
      with (String c (s ++ "/" ++ repo)).
    cbn [split_from].
    destruct (startswith "/" (String c (s ++ "/" ++ repo))).
    + cbn [String.length Nat.sub]. rewrite Hlast by apply split_from_not_nil.
      apply IH.
    + apply IH.
Qed.

(** X17. For an issue whose [repository_url] has the shape the remote API
    gives it, [https://api.github.com/repos/OWNER/REPO] with no [/] inside
    [OWNER] or [REPO], the report shows [OWNER/REPO] and the console
    summary shows [REPO]. *)
Theorem repository_names_of_api_url (issue : Issue) (owner repo : string) :
  repository_url issue
  = Some ("https://api.github.com/repos/" ++ owner ++ "/" ++ repo)%string ->
  contains_char "/" owner = false ->
  contains_char "/" repo = false ->
  repo_full_name issue = Done (owner ++ "/" ++ repo)%string
  /\ repo_name issue = repo.
Proof.
  intros Hu Ho Hr. unfold repo_full_name, repo_name. rewrite Hu. split.
  - pose proof (no_repos_in_full_name owner repo Ho Hr) as Hno.
    remember (owner ++ "/" ++ repo)%string as full eqn:Efull.
    unfold split_on. cbn.
    rewrite split_from_no_occurrence by exact Hno. reflexivity.
  - replace (nonempty ("https://api.github.com/repos/" ++ owner ++ "/" ++ repo))
      with true by reflexivity.
    rewrite <- append_assoc. unfold split_on.
    apply (last_split_slash repo Hr).
Qed.

(** ** The report *)

Lemma write_issues_formatted (good : list Issue) (blocks : list string) :
  formatted good blocks ->
  forall rest written,
    write_issues (good ++ rest) written
    = write_issues rest (written ++ String.concat "" blocks).
Proof.
  induction 1 as [|issue block good blocks Hb _ IH]; intros rest written.
  - cbn. rewrite append_nil_r. reflexivity.
  - cbn [app write_issues]. rewrite Hb, IH.
    assert (Hc : String.concat "" (block :: blocks)
                 = (block ++ String.concat "" blocks)%string).
    { destruct blocks as [|b blocks]; cbn;
        [rewrite append_nil_r|]; reflexivity. }
    rewrite Hc, append_assoc. reflexivity.
Qed.

(** X18. When the report can be opened, [save_to_markdown] writes the head
    with the number of issues and then one block per issue.  It completes
    when every issue can be formatted.  When an issue cannot, the exception
    leaves the function and the file keeps the head, which announces all
    the issues, followed by the blocks of the issues before that one only. *)
Theorem save_to_markdown_outcome (now : string) (issues : list Issue) :
  (issues = [] ->
   save_to_markdown now None issues
   = (Some (report_header now 0 ++ newline
            ++ "該当するissuesが見つかりませんでした。" ++ newline)%string,
      Done tt))
  /\ (forall blocks,
        issues <> [] -> formatted issues blocks ->
        save_to_markdown now None issues
        = (Some (report_header now (len issues)
                 ++ String.concat "" blocks)%string,
           Done tt))
  /\ (forall good bad rest blocks message,
        issues = good ++ bad :: rest ->
        formatted good blocks ->
        format_issue_markdown bad = Raised message ->
        save_to_markdown now None issues
        = (Some (report_header now (len issues)
                 ++ String.concat "" blocks)%string,
           Raised message)).
Proof.
  split; [|split].
  - intros ->. reflexivity.
  - intros blocks Hne Hf. unfold save_to_markdown.
    destruct issues as [|i l]; [congruence|]. cbn [is_empty].
    fold (report_header now (len (i :: l))).
    pose proof (write_issues_formatted (i :: l) blocks Hf []
                  (report_header now (len (i :: l)))) as Hw.
    rewrite app_nil_r in Hw. rewrite Hw. reflexivity.
  - intros good bad rest blocks message -> Hf Hbad.
    unfold save_to_markdown.
    destruct (good ++ bad :: rest) as [|i l] eqn:E;
      [destruct good; discriminate|].
    cbn [is_empty]. fold (report_header now (len (i :: l))).
    rewrite <- E at 1.
    rewrite (write_issues_formatted good blocks Hf).
    cbn [write_issues]. rewrite Hbad. reflexivity.
Qed.

(** * Properties of [main] *)

Lemma get_github_token_some (host : Host) (env : Environ)
    (err : list string) (t : string) :
  fst (fst (get_github_token host env err)) = Some t -> nonempty t = true.
Proof.
  destruct (get_github_token_result host env err) as [Hres _].
  rewrite Hres. set (token := or_else _ _).
  destruct (truthy token) eqn:E; [|discriminate].
  intros H. rewrite H in E. exact E.
Qed.

(** X19. When neither [GITHUB_TOKEN] nor [GITHUB_PAT] has a non-empty
    value in the environment and there is no [.env] file, [main] exits with
    status 1 before anything else happens: no request is made, nothing is
    printed on standard output, no report is written, the environment is
    unchanged, and standard error tells where to create a token. *)
Theorem main_without_credentials {World : Type} (settings : Settings)
    (host : Host) (output : Output) (connect : string -> Session World)
    (env : Environ) (w : World) :
  script_env host = None ->
  cwd_env host = None ->
  (forall t, environ_get "GITHUB_TOKEN" env = Some t -> t = EmptyString) ->
  (forall t, environ_get "GITHUB_PAT" env = Some t -> t = EmptyString) ->
  let run := main settings host output connect env w in
  ending run = Exited 1
  /\ trace (net run) = []
  /\ world (net run) = w
  /\ stdout run = []
  /\ report run = None
  /\ environ run = env
  /\ In "  https://github.com/settings/tokens"%string (stderr (net run)).
Proof.
  intros Hs Hc Htoken Hpat run. subst run.
  unfold main, get_github_token, load_env_file. rewrite Hs, Hc.
  assert (Hnone : truthy (or_else (environ_get "GITHUB_TOKEN" env)
                                  (environ_get "GITHUB_PAT" env)) = false).
  { unfold or_else.
    destruct (environ_get "GITHUB_TOKEN" env) as [a|] eqn:Ea.
    - rewrite (Htoken a eq_refl). cbn [nonempty].
      destruct (environ_get "GITHUB_PAT" env) as [b|] eqn:Eb; [|reflexivity].
      rewrite (Hpat b eq_refl). reflexivity.
    - destruct (environ_get "GITHUB_PAT" env) as [b|] eqn:Eb; [|reflexivity].
      rewrite (Hpat b eq_refl). reflexivity. }
  rewrite Hnone. cbn [negb exists_file ending net trace world stdout report
                      environ stderr].
  repeat split.
  apply in_or_app. left. apply in_or_app. right. cbn. auto 10.
Qed.

Lemma single_page_run {World : Type} (session : Session World)
    (owner repo state : string) (cap : Z) (st : St World) :
  1 <= cap <= 100 ->
  exists res st',
    get_issues_from_repo session owner repo state cap st = Some (res, st')
    /\ trace st'
       = trace st
         ++ [EvIssues (page_request owner repo state cap 1)
               (fst (get_issues session (page_request owner repo state cap 1)
                       (world st)))].
Proof.
  intros Hcap.
  destruct (get_issues_from_repo_full_run session owner repo state cap st)
    as (rs & st' & Hrun & Ht & _ & Hw & Hnil & Hsplit).
  assert (Hlen : len rs = 1).
  { destruct rs as [|r0 rs0] using rev_ind.
    - assert (cap <= 0) by (apply Hnil; reflexivity). lia.
    - clear IHrs0.
      pose proof (continuing_pages_accumulate cap _ Hsplit rs0 r0 [] eq_refl)
        as Hgrow.
      destruct (Hsplit rs0 r0 [] eq_refl) as [Hlt _].
      rewrite len_app. change (len [r0]) with 1.
      pose proof (len_nonneg rs0) as H0.
      rewrite Z.min_l in Hgrow by lia.
      destruct (Z.eq_dec (len rs0) 0) as [E|E]; [lia|].
      assert (cap * 1 <= cap * len rs0)
        by (apply Z.mul_le_mono_nonneg_l; lia).
      lia. }
  destruct rs as [|r0 [|r1 rs]]; try (cbn in Hlen; lia).
  cbn [List.length page_answers] in Hw.
  destruct (get_issues session (page_request owner repo state cap 1)
              (world st)) as [r' w'] eqn:Eget.
  injection Hw as -> _. cbn [fst]. eauto.
Qed.

(** X20. With a token, a repository set and [MAX_ISSUES] between 1 and 100,
    as in the shipped settings, a run of [main] makes exactly one request:
    page 1 of that repository's issues, with page size [MAX_ISSUES].  The
    repository list of the organization is never asked for. *)
Theorem main_single_request {World : Type} (settings : Settings)
    (host : Host) (output : Output) (connect : string -> Session World)
    (env : Environ) (w : World) (t r : string) :
  fst (fst (get_github_token host env [])) = Some t ->
  REPOSITORY settings = Some r ->
  nonempty r = true ->
  1 <= MAX_ISSUES settings <= 100 ->
  let q := page_request (OWNER settings) r (STATE settings)
             (MAX_ISSUES settings) 1 in
  trace (net (main settings host output connect env w))
  = [EvIssues q (fst (get_issues (connect t) q w))].
Proof.
  intros Htoken Hrepo Hr Hcap q.
  pose proof (get_github_token_some host env [] t Htoken) as Hne.
  unfold main. destruct (get_github_token host env []) as [[token env'] err].
  cbn [fst] in Htoken. subst token. rewrite Hne, Hrepo, Hr. cbn [negb].
  destruct (single_page_run (connect t) (OWNER settings) r (STATE settings)
              (MAX_ISSUES settings) (mkSt w [] err) Hcap)
    as (res & st' & Hrun & Ht).
  rewrite Hrun. cbn [trace world app] in Ht.
  destruct (save_to_markdown (now output) (open_error output) res)
    as [file [u|m]]; cbn [net]; exact Ht.
Qed.




(** ** Concrete runs of the credential, output and program properties *)

Lemma get_github_token_prefers_environment_witness :
  fst (fst (get_github_token dotenv_host
              [("GITHUB_TOKEN"%string, "ghp_env"%string)] []))
  = Some "ghp_env"%string.
Proof.
  apply (get_github_token_prefers_environment dotenv_host
           [("GITHUB_TOKEN"%string, "ghp_env"%string)] [] "ghp_env");
    reflexivity.
Defined.

Lemma load_line_assigns_witness :
  load_line ("GITHUB_TOKEN" ++ "=" ++ "ghp_file" ++ newline) []
  = Done [("GITHUB_TOKEN"%string, "ghp_file"%string)]
  /\ load_line ("GITHUB_TOKEN" ++ "=" ++ (dquote ++ "ghp_file" ++ dquote)
                ++ newline) []
     = Done [("GITHUB_TOKEN"%string, "ghp_file"%string)]
  /\ load_line ("GITHUB_TOKEN" ++ "=" ++ ("'" ++ "ghp_file" ++ "'")
                ++ newline) []
     = Done [("GITHUB_TOKEN"%string, "ghp_file"%string)].
Proof.
  apply (load_line_assigns "GITHUB_TOKEN" "ghp_file" newline []).
  - reflexivity.
  - reflexivity.
  - right. reflexivity.
Defined.

Lemma get_github_token_file_before_pat_witness :
  fst (fst (get_github_token dotenv_host
              [("GITHUB_PAT"%string, "ghp_pat"%string)] []))
  = Some "ghp_file"%string.
Proof.
  eapply (get_github_token_file_before_pat dotenv_host _ _ "ghp_file"
            [("GITHUB_PAT"%string, "ghp_pat"%string)] []);
    reflexivity.
Defined.


Lemma repository_names_of_api_url_witness :
  repo_full_name sample_api_issue = Done "microfund/freee-public"%string
  /\ repo_name sample_api_issue = "freee-public"%string.
Proof.
  apply (repository_names_of_api_url sample_api_issue "microfund"
           "freee-public");
    reflexivity.
Defined.

Lemma main_without_credentials_witness :
  let run := main shipped bare_host sample_output (fun _ => scripted) []
               one_page_repo in
  ending run = Exited 1
  /\ trace (net run) = []
  /\ world (net run) = one_page_repo
  /\ stdout run = []
  /\ report run = None
  /\ environ run = []
  /\ In "  https://github.com/settings/tokens"%string (stderr (net run)).
Proof.
  apply (main_without_credentials shipped bare_host sample_output
           (fun _ => scripted) [] one_page_repo);
    try reflexivity; intros t H; discriminate H.
Defined.

Lemma main_single_request_witness :
  trace (net (main shipped bare_host sample_output (fun _ => scripted)
                [("GITHUB_TOKEN"%string, "ghp_env"%string)] one_page_repo))
  = [EvIssues (page_request "microfund" "freee-public" "open" 100 1)
       (ok [sample_b1; pull_at 9 "2024-03-15T00:00:00Z"; sample_a1;
            sample_b2; sample_a2])].
Proof.
  apply (main_single_request shipped bare_host sample_output
           (fun _ => scripted)
           [("GITHUB_TOKEN"%string, "ghp_env"%string)] one_page_repo
           "ghp_env" "freee-public").
  - reflexivity.
  - reflexivity.
  - reflexivity.
  - cbn. lia.
Defined.

(** * Retrieval from a paged repository *)

Lemma firstn_then_more {A : Type} (a b : nat) (l : list A) :
  firstn a l ++ firstn b (skipn a l) = firstn (a + b) l.
Proof.
  revert l. induction a as [|a IH]; intros l; [reflexivity|].
  destruct l as [|x l]; cbn; [rewrite firstn_nil; reflexivity|].
  rewrite IH. reflexivity.
Qed.

Lemma non_pull_requests_id (l : list Issue) :
  no_pull_requests l -> non_pull_requests l = l.
Proof.
  induction 1 as [|x l Hx _ IH]; [reflexivity|].
  unfold non_pull_requests in *. cbn [filter].
  replace (has_pull_request x) with false
    by (unfold has_pull_request; rewrite Hx; reflexivity).
  cbn [negb]. rewrite IH. reflexivity.
Qed.

Lemma no_pull_requests_part (a b : nat) (l : list Issue) :
  no_pull_requests l -> no_pull_requests (firstn a (skipn b l)).
Proof.
  intros H. apply Forall_firstn'.
  apply Forall_forall. intros x Hx.
  unfold no_pull_requests in H. rewrite Forall_forall in H. apply H.
  rewrite <- (firstn_skipn b l). apply in_or_app. right. exact Hx.
Qed.

(** The loop against a paged repository without pull requests, after [k]
    full pages. *)
Lemma fetch_pages_paged (owner repo state : string) (cap : Z)
    (all : list Issue) :
  1 <= cap ->
  no_pull_requests all ->
  forall (budget k : nat) (d : Dict) (st : St unit),
    params_ready owner repo state cap d ->
    (k * Z.to_nat (Z.min cap 100) <= List.length all)%nat ->
    cap - Z.of_nat (k * Z.to_nat (Z.min cap 100)) <= Z.of_nat budget ->
    exists out st',
      fetch_pages (paged_repository all) budget owner repo
        (issues_url owner repo) d (Z.min cap 100) cap
        (firstn (k * Z.to_nat (Z.min cap 100)) all) (Z.of_nat k + 1) st
      = Some (out, st')
      /\ slice_to out cap = firstn (Z.to_nat cap) all.
Proof.
  intros Hcap Hclean.
  set (pp := Z.to_nat (Z.min cap 100)).
  assert (Hpp : (1 <= pp)%nat) by (subst pp; lia).
  assert (Hppz : Z.of_nat pp = Z.min cap 100) by (subst pp; lia).
  assert (Hslice : forall l : list Issue,
             slice_to l cap = firstn (Z.to_nat cap) l).
  { intros l. unfold slice_to.
    destruct (cap <? 0) eqn:E; [apply Z.ltb_lt in E; lia|reflexivity]. }
  induction budget as [|budget IH]; intros k d st Hd Hk Hb;
    assert (Hlen : len (firstn (k * pp) all) = Z.of_nat (k * pp))
      by (unfold len; rewrite length_firstn; lia);
    destruct (len (firstn (k * pp) all) <? cap) eqn:Hlt.
  2, 4: (rewrite fetch_pages_done by exact Hlt;
         eexists _, st; split; [reflexivity|];
         apply Z.ltb_ge in Hlt; rewrite Hslice, firstn_firstn;
         f_equal; lia).
  - apply Z.ltb_lt in Hlt. lia.
  - rewrite (fetch_pages_unfold (paged_repository all) budget owner repo
               (issues_url owner repo) d (Z.min cap 100) cap _ _ st Hlt).
    cbv zeta. rewrite (Hd (Z.of_nat k + 1)).
    change (mkRequest (issues_url owner repo)
              (params (page_request owner repo state cap (Z.of_nat k + 1))))
      with (page_request owner repo state cap (Z.of_nat k + 1)).
    set (q := page_request owner repo state cap (Z.of_nat k + 1)).
    assert (Hans : get_issues (paged_repository all) q (world st)
                   = (ok (firstn pp (skipn (k * pp) all)), world st)).
    { cbn [paged_repository get_issues]. unfold q, page_request.
      cbn [params]. unfold int_param. cbn [dict_get String.eqb Ascii.eqb
                                              Bool.eqb].
      do 3 f_equal.
      replace (Z.of_nat k + 1 - 1) with (Z.of_nat k) by lia.
      rewrite <- Hppz, <- Nat2Z.inj_mul, Nat2Z.id. reflexivity. }
    rewrite Hans. cbn [fst snd ok status_code json Z.eqb Pos.eqb negb].
    set (body := firstn pp (skipn (k * pp) all)).
    rewrite (non_pull_requests_id body)
      by (apply no_pull_requests_part; exact Hclean).
    assert (Hbody : List.length body
                    = Nat.min pp (List.length all - k * pp))
      by (unfold body; rewrite length_firstn, length_skipn; reflexivity).
    apply Z.ltb_lt in Hlt.
    assert (Hall : (List.length body < pp)%nat ->
                   firstn (k * pp) all ++ body = all).
    { intros Hshort. unfold body.
      rewrite firstn_then_more. apply firstn_all2. lia. }
    destruct body as [|i l] eqn:Ebody; cbn [is_empty].
    + eexists _, _. split; [reflexivity|].
      rewrite <- (app_nil_r (firstn (k * pp) all)), Hall by (cbn; lia).
      apply Hslice.
    + rewrite <- Ebody in *. clear Ebody.
      destruct (len body <? Z.min cap 100) eqn:Hshort.
      * eexists _, _. split; [reflexivity|].
        apply Z.ltb_lt in Hshort. unfold len in Hshort.
        rewrite Hall by lia. apply Hslice.
      * apply Z.ltb_ge in Hshort. unfold len in Hshort.
        assert (Hfull : List.length body = pp) by lia.
        unfold body in *. rewrite firstn_then_more.
        replace (k * pp + pp)%nat with (S k * pp)%nat by lia.
        replace (Z.of_nat k + 1 + 1) with (Z.of_nat (S k) + 1) by lia.
        apply IH.
        -- apply params_ready_next.
        -- lia.
        -- lia.
Qed.

(** X22. Against a repository that serves its entries page by page and
    holds no pull request, [get_issues_from_repo] with a cap [>= 1] returns
    the first [cap] issues of the repository, in the repository's order,
    and all of them when there are fewer. *)
Theorem get_issues_from_repo_paged_complete (owner repo state : string)
    (cap : Z) (all : list Issue) (st : St unit) :
  1 <= cap ->
  no_pull_requests all ->
  exists st',
    get_issues_from_repo (paged_repository all) owner repo state cap st
    = Some (firstn (Z.to_nat cap) all, st').
Proof.
  intros Hcap Hclean.
  destruct (fetch_pages_paged owner repo state cap all Hcap Hclean
              (Z.to_nat cap) 0 (initial_params state cap) st)
    as (out & st' & Hrun & Hout).
  - apply params_ready_initial.
  - cbn. lia.
  - cbn. lia.
  - exists st'. unfold get_issues_from_repo, M.bind.
    fold (issues_url owner repo). fold (initial_params state cap).
    cbn [Nat.mul firstn] in Hrun. change (Z.of_nat 0 + 1) with 1 in Hrun.
    rewrite Hrun. unfold M.ret.
    rewrite Hout. reflexivity.
Qed.

Lemma get_issues_from_repo_paged_complete_witness :
  exists st',
    get_issues_from_repo
      (paged_repository (repeat sample_a1 120 ++ repeat sample_a2 80))
      "o" "r" "open" 150 (mkSt tt [] [])
    = Some (firstn (Z.to_nat 150) (repeat sample_a1 120 ++ repeat sample_a2 80),
            st').
Proof.
  apply (get_issues_from_repo_paged_complete "o" "r" "open" 150
           (repeat sample_a1 120 ++ repeat sample_a2 80) (mkSt tt [] [])).
  - lia.
  - apply Forall_app. split; apply Forall_forall; intros x Hx;
      apply repeat_spec in Hx; subst x; reflexivity.
Defined.

Lemma pull_request_shortens (l : list Issue) :
  Exists (fun issue => pull_request issue <> None) l ->
  len (non_pull_requests l) < len l.
Proof.
  intros H. unfold len, non_pull_requests.
  pose proof (filter_length (fun i => negb (has_pull_request i)) l) as Hsum.
  cbv beta in Hsum.
  set (prs := filter (fun x => negb (negb (has_pull_request x))) l) in *.
  assert (Hpos : (0 < List.length prs)%nat).
  { apply Exists_exists in H. destruct H as (x & Hin & Hx).
    assert (Hf : In x prs).
    { apply filter_In. split; [exact Hin|].
      unfold has_pull_request. destruct (pull_request x); [reflexivity|].
      congruence. }
    destruct prs; [contradiction Hf|cbn; lia]. }
  lia.
Qed.

(** X23. Against a repository served page by page, a pull request among
    the first [min(cap, 100)] entries ends the retrieval after the first
    page: [get_issues_from_repo] returns the issues among those entries
    only, fewer than the page size, whatever the cap and however many
    issues the repository holds beyond the first page. *)
Theorem get_issues_from_repo_paged_stops_at_pull_request
    (owner repo state : string) (cap : Z) (all : list Issue) (st : St unit) :
  1 <= cap ->
  Exists (fun issue => pull_request issue <> None)
         (firstn (Z.to_nat (Z.min cap 100)) all) ->
  exists st',
    get_issues_from_repo (paged_repository all) owner repo state cap st
    = Some (non_pull_requests (firstn (Z.to_nat (Z.min cap 100)) all), st')
    /\ len (non_pull_requests (firstn (Z.to_nat (Z.min cap 100)) all))
       < Z.min cap 100
    /\ List.length (trace st') = S (List.length (trace st)).
Proof.
  intros Hcap Hpr.
  set (body := firstn (Z.to_nat (Z.min cap 100)) all) in *.
  pose proof (pull_request_shortens body Hpr) as Hshort.
  assert (Hbody : len body <= Z.min cap 100).
  { unfold len, body. rewrite length_firstn. lia. }
  pose proof (len_nonneg (non_pull_requests body)) as H0.
  unfold get_issues_from_repo, M.bind.
  fold (issues_url owner repo). fold (initial_params state cap).
  destruct (Z.to_nat cap) as [|budget] eqn:Eb; [lia|].
  rewrite fetch_pages_unfold by (apply Z.ltb_lt; cbn; lia).
  cbv zeta. rewrite (params_ready_initial owner repo state cap 1).
  change (mkRequest (issues_url owner repo)
            (params (page_request owner repo state cap 1)))
    with (page_request owner repo state cap 1).
  assert (Hans : get_issues (paged_repository all)
                   (page_request owner repo state cap 1) (world st)
                 = (ok body, world st)).
  { cbn [paged_repository get_issues]. unfold page_request.
    cbn [params]. unfold int_param.
    cbn [dict_get String.eqb Ascii.eqb Bool.eqb]. reflexivity. }
  rewrite Hans. cbn [fst snd ok status_code json Z.eqb Pos.eqb negb].
  destruct body as [|i l] eqn:Ebody; [inversion Hpr|].
  cbn [is_empty]. rewrite <- Ebody in *.
  assert (Hlt : (len (non_pull_requests body) <? Z.min cap 100) = true)
    by (apply Z.ltb_lt; lia).
  rewrite Hlt. unfold M.ret. cbn [app].
  rewrite slice_to_all by lia.
  eexists. split; [reflexivity|]. split; [lia|].
  cbn [trace]. rewrite length_app. cbn. lia.
Qed.

Lemma get_issues_from_repo_paged_stops_at_pull_request_witness :
  exists st',
    get_issues_from_repo
      (paged_repository [sample_b1; pull_at 9 "2024-03-15T00:00:00Z";
                         sample_a1; sample_b2; sample_a2])
      "o" "r" "open" 2 (mkSt tt [] [])
    = Some ([sample_b1], st')
    /\ len [sample_b1] < 2
    /\ List.length (trace st') = 1%nat.
Proof.
  apply (get_issues_from_repo_paged_stops_at_pull_request "o" "r" "open" 2
           [sample_b1; pull_at 9 "2024-03-15T00:00:00Z"; sample_a1;
            sample_b2; sample_a2] (mkSt tt [] [])).
  - lia.
  - apply Exists_cons_tl, Exists_cons_hd. cbn. discriminate.
Defined.
